(** * Bounded-memory scan and batch processing
    (scripts/example-optimized-processing.py)

    The development embeds the two functions of the script that carry its
    design: the depth-limited traversal [find_unformatted_files_generator]
    and the batch runner [process_directory_optimized], together with the
    entry point [main].  The traversal is a function on a tree of directory
    listings; the batch runner is a deterministic step function on the state
    of its loop, one step per statement group of the source. *)

From Stdlib Require Import List ZArith Lia Bool Arith String Ascii.
Import ListNotations.
Local Open Scope string_scope.
Local Open Scope Z_scope.
Local Open Scope list_scope.

(* ===================================================================== *)
(** ** Text

    A Python [str] is a sequence of code points.  A string of this
    development holds a [str] in UTF-8, the form in which a file name
    and a line of the terminal come to the program; [Unicode.decode]
    gives the code points, as [os.fsdecode] does for a file name: a byte
    that belongs to no well-formed sequence stands for a lone surrogate.
    The two classes of characters the scripts rely on, the decimal digits
    ([\d] of a [str] pattern) and the white space ([str.strip]), are those
    of the Unicode database of Python 3.11 (Unicode 14.0). *)

Module Unicode.

Definition text : Type := list N.

Definition byte (a : ascii) : N := N_of_ascii a.

Definition between (lo hi b : N) : bool := ((lo <=? b) && (b <=? hi))%N.

(** A continuation byte, [80]..[BF]. *)
Definition continuation (b : N) : bool := between 128 191 b.

(** The well-formed sequence, if there is one, made of the byte [b0] and
    of the first bytes of [s]: its code point and the number of bytes of
    [s] that belong to it.  Overlong forms, surrogates and code points
    above [10FFFF] are not well formed. *)
Definition sequence_at (b0 : N) (s : string) : option (N * nat) :=
  if (b0 <? 128)%N then Some (b0, 0%nat)
  else if between 194 223 b0 then
    match s with
    | String a1 _ =>
        let b1 := byte a1 in
        if continuation b1
        then Some (((b0 - 192) * 64 + (b1 - 128))%N, 1%nat)
        else None
    | _ => None
    end
  else if between 224 239 b0 then
    match s with
    | String a1 (String a2 _) =>
        let b1 := byte a1 in
        let b2 := byte a2 in
        if between (if (b0 =? 224)%N then 160 else 128)
                   (if (b0 =? 237)%N then 159 else 191) b1
           && continuation b2
        then Some (((b0 - 224) * 4096 + (b1 - 128) * 64 + (b2 - 128))%N,
                   2%nat)
        else None
    | _ => None
    end
  else if between 240 244 b0 then
    match s with
    | String a1 (String a2 (String a3 _)) =>
        let b1 := byte a1 in
        let b2 := byte a2 in
        let b3 := byte a3 in
        if between (if (b0 =? 240)%N then 144 else 128)
                   (if (b0 =? 244)%N then 143 else 191) b1
           && continuation b2 && continuation b3
        then Some (((b0 - 240) * 262144 + (b1 - 128) * 4096
                    + (b2 - 128) * 64 + (b3 - 128))%N,
                   3%nat)
        else None
    | _ => None
    end
  else None.

(** The code points of the bytes of [s], the first [skip] of which belong
    to a sequence already decoded.  A byte at which no well-formed
    sequence starts gives the surrogate [DC00 + byte]. *)
Fixpoint decode_from (skip : nat) (s : string) : text :=
  match s with
  | EmptyString => []
  | String a s' =>
      match skip with
      | S k => decode_from k s'
      | O =>
          match sequence_at (byte a) s' with
          | Some (c, k) => c :: decode_from k s'
          | None => (56320 + byte a)%N :: decode_from 0 s'
          end
      end
  end.

Definition decode (s : string) : text := decode_from 0 s.

(** The code points of the digit zero of each run of ten decimal digits
    (general category Nd): ASCII, Arabic-Indic, ..., full-width, ... *)
Definition DECIMAL_ZEROS : list N :=
  [ 48; 1632; 1776; 1984; 2406; 2534; 2662; 2790; 2918; 3046; 3174; 3302;
    3430; 3558; 3664; 3792; 3872; 4160; 4240; 6112; 6160; 6470; 6608;
    6784; 6800; 6992; 7088; 7232; 7248; 42528; 43216; 43264; 43472;
    43504; 43600; 44016; 65296; 66720; 68912; 69734; 69872; 69942; 70096;
    70384; 70736; 70864; 71248; 71360; 71472; 71904; 72016; 72784; 73040;
    73120; 92768; 92864; 93008; 120782; 120792; 120802; 120812; 120822;
    123200; 123632; 125264; 130032 ]%N.

(** [c.isdecimal()] *)
Definition is_decimal (c : N) : bool :=
  existsb (fun zero => between zero (zero + 9) c) DECIMAL_ZEROS.

(** The white space: tab to carriage return, the four separators, the
    space, next line, no-break space, and the spaces and separators
    beyond Latin-1. *)
Definition WHITESPACE : list N :=
  [ 9; 10; 11; 12; 13; 28; 29; 30; 31; 32; 133; 160; 5760;
    8192; 8193; 8194; 8195; 8196; 8197; 8198; 8199; 8200; 8201; 8202;
    8232; 8233; 8239; 8287; 12288 ]%N.

(** [c.isspace()] *)
Definition is_space (c : N) : bool := existsb (N.eqb c) WHITESPACE.

(** [s == t] *)
Fixpoint eqb (s t : text) : bool :=
  match s, t with
  | [], [] => true
  | c :: s', d :: t' => (c =? d)%N && eqb s' t'
  | _, _ => false
  end.

End Unicode.

(* ===================================================================== *)
(** ** File names

    [str.lower] is taken on the letters [A]..[Z] and leaves the other
    characters as they are.  This decides no membership in the
    allow-list: the one character outside ASCII whose lower case is an
    ASCII letter is the Kelvin sign, with [k], and no extension of the
    allow-list has a [k]. *)

Module Name.

(** [c.lower()] for one character. *)
Definition lower_ascii (c : ascii) : ascii :=
  let n := nat_of_ascii c in
  if ((65 <=? n) && (n <=? 90))%nat then ascii_of_nat (n + 32) else c.

(** [s.lower()] *)
Fixpoint lower (s : string) : string :=
  match s with
  | EmptyString => EmptyString
  | String c s' => String (lower_ascii c) (lower s')
  end.

(** [s.startswith(p)] *)
Definition startswith (p s : string) : bool := String.prefix p s.

(** [s.rfind(c)], [None] standing for Python's [-1]. *)
Fixpoint rfind (c : ascii) (s : string) : option nat :=
  match s with
  | EmptyString => None
  | String a s' =>
      match rfind c s' with
      | Some i => Some (S i)
      | None => if Ascii.eqb a c then Some 0%nat else None
      end
  end.

(** pathlib's [PurePath.suffix] on the final component:
    [i = name.rfind('.')]; [name[i:]] when [0 < i < len(name) - 1],
    the empty string otherwise. *)
Definition suffix (name : string) : string :=
  match rfind "."%char name with
  | Some i =>
      if ((0 <? i) && (i <? String.length name - 1))%nat
      then substring i (String.length name - i) name
      else ""
  | None => ""
  end.

(** [\d], the pattern being a [str] pattern: any decimal digit. *)
Definition is_digit (c : N) : bool := Unicode.is_decimal c.

(** A pattern that matches one character: [\d] or the character itself. *)
Inductive atom := Digit | Lit (c : ascii).

(** An element of the pattern: an atom, or an atom with [{n}]. *)
Inductive piece := Once (a : atom) | Times (a : atom) (n : nat).

Definition atom_matches (a : atom) (c : N) : bool :=
  match a with
  | Digit => is_digit c
  | Lit d => (c =? Unicode.byte d)%N
  end.

(** What is left of [s] after [n] characters that match [a]. *)
Fixpoint match_times (a : atom) (n : nat) (s : Unicode.text)
  : option Unicode.text :=
  match n with
  | O => Some s
  | S n' =>
      match s with
      | [] => None
      | c :: s' => if atom_matches a c then match_times a n' s' else None
      end
  end.

Definition match_piece (p : piece) (s : Unicode.text)
  : option Unicode.text :=
  match p with
  | Once a => match_times a 1 s
  | Times a n => match_times a n s
  end.

Fixpoint match_pieces (p : list piece) (s : Unicode.text) : bool :=
  match p with
  | [] => true
  | x :: p' =>
      match match_piece x s with
      | Some s' => match_pieces p' s'
      | None => false
      end
  end.

(** [p.match(s)] as a truth value, for a pattern that is a sequence of
    such elements: the match starts at the start of the string, anything
    may follow it. *)
Definition re_match (p : list piece) (s : string) : bool :=
  match_pieces p (Unicode.decode s).

(** [FORMATTED_PATTERN = re.compile(r'^\d{4}-\d{2}-\d{2}_')] *)
Definition FORMATTED_PATTERN : list piece :=
  [ Times Digit 4; Once (Lit "-"); Times Digit 2; Once (Lit "-");
    Times Digit 2; Once (Lit "_") ]%char.

(** [FILE_EXTENSIONS] *)
Definition FILE_EXTENSIONS : list string :=
  [".pdf"; ".txt"; ".doc"; ".docx"; ".xls"; ".xlsx"; ".ppt"; ".pptx"].

(** [x in FILE_EXTENSIONS] *)
Definition in_extensions (x : string) : bool :=
  existsb (String.eqb x) FILE_EXTENSIONS.

End Name.

(* ===================================================================== *)
(** ** Paths and directory trees *)

(** A path is the sequence of its components; [joinpath p n] is [p / n]
    and [name p] its final component. *)
Definition Path := list string.

Definition joinpath (p : Path) (n : string) : Path := p ++ [n].

Definition name (p : Path) : string := last p "".

(** Exceptions, all of them subclasses of Python's [Exception]. *)
Inductive exn :=
| PermissionError
| NotADirectoryError
| OtherError (msg : string).

(** What the traversal can observe of the file system below a path: a
    regular file ([is_file()]), a directory ([is_dir()]) with the entries of
    its listing in listing order, or something that is neither.  A directory
    carries [err]: [Some (k, e)] when working through its listing raises
    [e] once [k] entries have been delivered ([k = 0] for a directory that
    cannot be opened), [None] when the listing is delivered whole. *)
#[local] Unset Elimination Schemes.
Inductive node :=
| File
| Other
| Dir (entries : list (string * node)) (err : option (nat * exn)).
#[local] Set Elimination Schemes.

Definition is_dir (n : node) : bool :=
  match n with Dir _ _ => true | _ => false end.

Definition is_file (n : node) : bool :=
  match n with File => true | _ => false end.

(* ===================================================================== *)
(** ** The traversal: [find_unformatted_files_generator] *)

(** How a generator body ends: it runs to its end, or an exception leaves
    it.  A generator is observed as the list of the items it yields, in
    order, with the way it ends. *)
Inductive completion :=
| Normal
| Raised (e : exn).

Definition generated : Type := list Path * completion.

(** The exception, if any, that the listing of a directory raises when the
    entry of index [i] is asked for. *)
Definition raises_at (err : option (nat * exn)) (i : nat) : option exn :=
  match err with
  | Some (k, e) => if Nat.eqb k i then Some e else None
  | None => None
  end.

Section ForLoop.

(** The recursive call of line 45, [visit item item_node]. *)
Variable visit : Path -> node -> generated.
Variable dir_path : Path.
Variable err : option (nat * exn).

(** Lines 39-49: the [for item in dir_path.iterdir()] loop, at the entry
    of index [i], [es] being the entries from that index on.  An
    exception raised by the listing, or leaving the delegated generator
    of line 45, ends the loop on the spot. *)
Fixpoint for_item_in_iterdir (es : list (string * node)) (i : nat)
  : generated :=
  match raises_at err i with
  | Some e => ([], Raised e)
  | None =>
      match es with
      | [] => ([], Normal)
      | (n, item_node) :: es' =>
          let item := joinpath dir_path n in
          if Name.startswith "." (name item) then
            (* continue *)
            for_item_in_iterdir es' (S i)
          else if is_dir item_node then
            (* yield from ... *)
            match visit item item_node with
            | (ys, Normal) =>
                let (zs, c) := for_item_in_iterdir es' (S i) in
                (ys ++ zs, c)
            | (ys, Raised e) => (ys, Raised e)
            end
          else if is_file item_node
                  && Name.in_extensions (Name.lower (Name.suffix (name item)))
          then
            if negb (Name.re_match Name.FORMATTED_PATTERN (name item)) then
              (* yield item *)
              let (zs, c) := for_item_in_iterdir es' (S i) in
              (item :: zs, c)
            else for_item_in_iterdir es' (S i)
          else for_item_in_iterdir es' (S i)
      end
  end.

End ForLoop.

(** Lines 50-53: the two handlers of the [try]; both are [pass]. *)
Definition except_pass (body : generated) : generated :=
  match body with
  | (ys, Normal) => (ys, Normal)
  | (ys, Raised PermissionError) => (ys, Normal)
  | (ys, Raised _) => (ys, Normal)
  end.

(** [find_unformatted_files_generator(dir_path, max_depth, current_depth)],
    [d] being what the file system holds at [dir_path].  [iterdir()] on
    something that is not a directory raises. *)
Fixpoint find_unformatted_files_generator
  (dir_path : Path) (d : node) (max_depth current_depth : Z) {struct d}
  : generated :=
  if current_depth >? max_depth then ([], Normal)
  else
    except_pass
      match d with
      | Dir entries err =>
          for_item_in_iterdir
            (fun item item_node =>
               find_unformatted_files_generator
                 item item_node max_depth (current_depth + 1))
            dir_path err entries 0
      | _ => ([], Raised NotADirectoryError)
      end.

(** The items yielded, in order. *)
Definition yielded (dir_path : Path) (d : node) (max_depth : Z) : list Path :=
  fst (find_unformatted_files_generator dir_path d max_depth 0).

(* ===================================================================== *)
(** ** The files a traversal is expected to yield *)

(** The three tests on a name, as the specification words them. *)
Definition hidden (n : string) : bool := Name.startswith "." n.

Definition allowed_extension (n : string) : bool :=
  Name.in_extensions (Name.lower (Name.suffix n)).

Definition formatted (n : string) : bool :=
  Name.re_match Name.FORMATTED_PATTERN n.

(** Three views of a directory: all the entries it holds; the entries its
    listing delivers before it raises, if it does; its entries when its
    listing raises nothing, none otherwise. *)
Definition listing (d : node) : list (string * node) :=
  match d with
  | Dir es _ => es
  | _ => []
  end.

Definition delivered (d : node) : list (string * node) :=
  match d with
  | Dir es None => es
  | Dir es (Some (k, _)) => firstn k es
  | _ => []
  end.


(** [at_path view d rel n]: following the components of [rel] from [d],
    through entries that [view] shows, leads to [n]. *)
Inductive at_path (view : node -> list (string * node))
  : node -> list string -> node -> Prop :=
| at_here : forall n, at_path view n [] n
| at_step : forall d n c rel m,
    In (n, c) (view d) -> at_path view c rel m ->
    at_path view d (n :: rel) m.

(** The depth of the file at relative path [rel]: the number of
    directories below the root on its path (a file of the root has depth
    0). *)
Definition depth (rel : list string) : Z := Z.of_nat (List.length rel) - 1.

(** The relative path [rel] leads, in the given view, to a regular file
    that passes the filter: no hidden component, depth at most
    [max_depth], allowed extension, name not formatted. *)
Definition matching (view : node -> list (string * node))
  (d : node) (max_depth : Z) (rel : list string) : Prop :=
  at_path view d rel File
  /\ Forall (fun n => hidden n = false) rel
  /\ depth rel <= max_depth
  /\ allowed_extension (last rel "") = true
  /\ formatted (last rel "") = false.

(** The names of a directory's entries are pairwise distinct, at every
    level: what a file system guarantees. *)
#[local] Unset Elimination Schemes.
Inductive unique_names : node -> Prop :=
| un_File : unique_names File
| un_Other : unique_names Other
| un_Dir : forall es err,
    NoDup (map fst es) ->
    Forall (fun e => unique_names (snd e)) es ->
    unique_names (Dir es err).
#[local] Set Elimination Schemes.

(** No listing of the tree raises. *)
#[local] Unset Elimination Schemes.
#[local] Set Elimination Schemes.


(** *** The two conditions on trees, as checks *)

Fixpoint distinct (l : list string) : bool :=
  match l with
  | [] => true
  | x :: l' => negb (existsb (String.eqb x) l') && distinct l'
  end.

Fixpoint unique_namesb (d : node) : bool :=
  match d with
  | Dir es _ =>
      distinct (map fst es) && forallb (fun '(_, c) => unique_namesb c) es
  | _ => true
  end.


(** What one entry of a listing contributes to the loop of lines 39-49
    when nothing is raised: [visit] is the recursive call, [dir_path] the
    directory being listed. *)
Definition yields_of_entry (visit : Path -> node -> generated)
  (dir_path : Path) (e : string * node) : list Path :=
  let (n, c) := e in
  if hidden n then []
  else if is_dir c then fst (visit (joinpath dir_path n) c)
  else if is_file c && allowed_extension n && negb (formatted n)
       then [joinpath dir_path n]
       else [].

(** *** Example trees *)

(** An archive with a hidden directory, a formatted name, names with
    several dots or upper-case extensions, an entry that is neither file
    nor directory, and a subdirectory that cannot be opened. *)
Definition archive_example : node :=
  Dir [ ("a.pdf", File);
        (".git", Dir [("x.pdf", File)] None);
        ("2024-01-02_b.pdf", File);
        ("sub", Dir [ ("c.TXT", File);
                      ("d.png", File);
                      ("lock", Dir [("e.pdf", File)]
                                   (Some (0%nat, PermissionError)));
                      ("f.docx", File) ] None);
        ("g.tar.gz", File);
        ("h.doc", Other) ] None.

(** A readable archive. *)
Definition readable_example : node :=
  Dir [ ("a.pdf", File);
        ("2024-01-02_b.pdf", File);
        ("sub", Dir [ ("c.TXT", File); ("deep", Dir [("e.xls", File)] None) ]
                    None) ] None.


(* ===================================================================== *)
(** ** The batch runner: [process_directory_optimized]

    The runner is a deterministic machine.  Its state holds the variables
    of the function ([batch], [stats], [batch_count]), the candidates the
    generator has still to yield, the state of the world the per-item
    operation acts on, what has been printed, and a history of the run
    (the candidates pulled, the calls made, how the main loop was left).
    A step is one statement group of the source; [pc] tells which one is
    next.  The generator is taken by what it yields, in order, and the
    machine runs over any such sequence.  [gc.collect()] and
    [time.sleep()] change nothing of this state and have no step of their
    own. *)

(** What a call of the per-item operation does: it returns a truth value
    or it raises. *)
Inductive outcome :=
| Returns (b : bool)
| Raises (e : exn).

(** [stats = {'success': 0, 'errors': 0}] *)
Record stats := { success : Z; errors : Z }.

(** The lines the script prints. *)
Inductive output :=
| OutBanner (batch_size limit : Z)             (* lines 124-129 *)
| OutPathMissing (base : string)               (* lines 134-135 *)
| OutProcessing (dir_path : Path)              (* line 76 *)
| OutBatch (batch_count success errors : Z)    (* line 95 *)
| OutLimit (limit : Z)                         (* line 106 *)
| OutComplete (success errors : Z).            (* lines 145-151 *)

(** How the loop of line 83 was left: the generator had nothing more, or
    the [break] of line 107. *)
Inductive loop_exit :=
| Exhausted
| SafetyLimit.

Inductive control :=
| AtPull                        (* line 83: the next item of the generator *)
| InFlush (rest : list Path)    (* lines 88-92: [for f in batch], [rest] to go *)
| AfterLoop                     (* line 110: [if batch] *)
| InTail (rest : list Path)     (* lines 111-115: [for f in batch], [rest] to go *)
| Returned                      (* line 121: [return stats] *)
| Escaped (e : exn).            (* an exception has left the function *)

Section Runner.

(** The per-item operation, acting on a world of its own, and the two
    settings of the script. *)
Variable World : Type.
Variable process_file : Path -> World -> outcome * World.
Variable BATCH_SIZE : Z.
Variable MAX_FILES_PER_RUN : Z.

Record state := {
  pc : control;
  source : list Path;
  batch : list Path;
  st : stats;
  batch_count : Z;
  world : World;
  stdout : list output;
  pulled : list Path;
  calls : list (Path * outcome);
  left_by : option loop_exit
}.

(** Lines 76-80. *)
Definition initial (dir_path : Path) (src : list Path) (w : World) : state :=
  {| pc := AtPull; source := src; batch := [];
     st := {| success := 0; errors := 0 |}; batch_count := 0;
     world := w; stdout := [OutProcessing dir_path];
     pulled := []; calls := []; left_by := None |}.

(** [stats['success'] += 1] or [stats['errors'] += 1]. *)
Definition count (b : bool) (s : stats) : stats :=
  if b then {| success := success s + 1; errors := errors s |}
  else {| success := success s; errors := errors s + 1 |}.

(** Lines 89-92 and 112-115: the body of [for f in batch], for the element
    [f], [rest] being the elements after it; [resume] is the loop it
    belongs to.  Nothing catches what [process_file] raises. *)
Definition process_item (resume : list Path -> control)
  (f : Path) (rest : list Path) (s : state) : state :=
  match process_file f (world s) with
  | (Returns b, w) =>
      {| pc := resume rest; source := source s; batch := batch s;
         st := count b (st s); batch_count := batch_count s;
         world := w; stdout := stdout s;
         pulled := pulled s; calls := calls s ++ [(f, Returns b)];
         left_by := left_by s |}
  | (Raises e, w) =>
      {| pc := Escaped e; source := source s; batch := batch s;
         st := st s; batch_count := batch_count s;
         world := w; stdout := stdout s;
         pulled := pulled s; calls := calls s ++ [(f, Raises e)];
         left_by := left_by s |}
  end.

(** Lines 83-86: pull the next candidate, append it, test the length. *)
Definition pull (s : state) : state :=
  match source s with
  | [] =>
      {| pc := AfterLoop; source := []; batch := batch s;
         st := st s; batch_count := batch_count s;
         world := world s; stdout := stdout s;
         pulled := pulled s; calls := calls s;
         left_by := Some Exhausted |}
  | file_path :: src =>
      let b := batch s ++ [file_path] in
      {| pc := if Z.of_nat (List.length b) >=? BATCH_SIZE
               then InFlush b else AtPull;
         source := src; batch := b;
         st := st s; batch_count := batch_count s;
         world := world s; stdout := stdout s;
         pulled := pulled s ++ [file_path]; calls := calls s;
         left_by := left_by s |}
  end.

(** Lines 94-107: the end of a flush in the main loop.  The count of
    batches goes up, the progress line is printed, the batch is cleared
    (the collection and the pause leave the state as it is), and the
    safety limit is tested. *)
Definition end_of_flush (s : state) : state :=
  let n := batch_count s + 1 in
  let line := OutBatch n (success (st s)) (errors (st s)) in
  if success (st s) >=? MAX_FILES_PER_RUN then
    {| pc := AfterLoop; source := source s; batch := [];
       st := st s; batch_count := n;
       world := world s;
       stdout := stdout s ++ [line; OutLimit MAX_FILES_PER_RUN];
       pulled := pulled s; calls := calls s;
       left_by := Some SafetyLimit |}
  else
    {| pc := AtPull; source := source s; batch := [];
       st := st s; batch_count := n;
       world := world s; stdout := stdout s ++ [line];
       pulled := pulled s; calls := calls s;
       left_by := left_by s |}.

(** Line 110: [if batch]. *)
Definition after_loop (s : state) : state :=
  {| pc := match batch s with [] => Returned | _ :: _ => InTail (batch s) end;
     source := source s; batch := batch s;
     st := st s; batch_count := batch_count s;
     world := world s; stdout := stdout s;
     pulled := pulled s; calls := calls s;
     left_by := left_by s |}.

(** Lines 116-121: the end of the tail flush, [batch.clear()] and the
    return. *)
Definition end_of_tail (s : state) : state :=
  {| pc := Returned; source := source s; batch := [];
     st := st s; batch_count := batch_count s;
     world := world s; stdout := stdout s;
     pulled := pulled s; calls := calls s;
     left_by := left_by s |}.

Definition step (s : state) : state :=
  match pc s with
  | AtPull => pull s
  | InFlush [] => end_of_flush s
  | InFlush (f :: rest) => process_item InFlush f rest s
  | AfterLoop => after_loop s
  | InTail [] => end_of_tail s
  | InTail (f :: rest) => process_item InTail f rest s
  | Returned => s
  | Escaped _ => s
  end.

Fixpoint run (n : nat) (s : state) : state :=
  match n with
  | O => s
  | S n' => run n' (step s)
  end.

(** The function has returned or an exception has left it. *)
Definition finished (s : state) : bool :=
  match pc s with
  | Returned | Escaped _ => true
  | _ => false
  end.

Definition escaped (s : state) : bool :=
  match pc s with
  | Escaped _ => true
  | _ => false
  end.

(** Steps that are enough for a source of this length: three for each
    candidate (pulled, processed, at most one flush ended) and three to
    leave. *)
Definition enough (src : list Path) : nat := 3 * List.length src + 3.

(** The run of the batch runner over the candidates [src]. *)
Definition run_batches (dir_path : Path) (src : list Path) (w : World)
  : state :=
  run (enough src) (initial dir_path src w).

(** [process_directory_optimized(dir_path)], [d] being what the file
    system holds at [dir_path]: the source is the generator with its
    default arguments, [max_depth = 3] and [current_depth = 0].  The
    generator lists a directory when the loop of line 83 comes to it, so
    that what it yields is what the traversal of [d] yields as long as
    the per-item operation leaves the tree as it is: the world the
    operation acts on is apart from [d].  This is the case of the
    script's own [process_file], which prints; an operation that renames,
    moves or creates files below [dir_path] is outside this definition. *)
Definition process_directory_optimized (dir_path : Path) (d : node)
  (w : World) : state :=
  run_batches dir_path (yielded dir_path d 3) w.

(** What the caller gets: the statistics, or the exception. *)
Definition result (s : state) : option (stats + exn) :=
  match pc s with
  | Returned => Some (inl (st s))
  | Escaped e => Some (inr e)
  | _ => None
  end.

(** [main()], [archive] being what the file system holds at
    [ARCHIVE_BASE], [None] when nothing exists there.  It gives what is
    printed and, when it got that far, the final state of
    [process_directory_optimized]; the summary is printed when that call
    returns. *)
Definition main (ARCHIVE_BASE : string) (archive : option node) (w : World)
  : list output * option state :=
  let banner := OutBanner BATCH_SIZE MAX_FILES_PER_RUN in
  match archive with
  | None => ([banner; OutPathMissing ARCHIVE_BASE], None)
  | Some d =>
      let s := process_directory_optimized [ARCHIVE_BASE] d w in
      match pc s with
      | Returned =>
          (banner :: stdout s
             ++ [OutComplete (success (st s)) (errors (st s))],
           Some s)
      | _ => (banner :: stdout s, Some s)
      end
  end.

End Runner.

Arguments pc {World} _.
Arguments source {World} _.
Arguments batch {World} _.
Arguments st {World} _.
Arguments batch_count {World} _.
Arguments world {World} _.
Arguments stdout {World} _.
Arguments pulled {World} _.
Arguments calls {World} _.
Arguments left_by {World} _.
Arguments finished {World} _.
Arguments escaped {World} _.
Arguments result {World} _.

(** *** The script's own settings and per-item operation *)

(** [str(e)] *)
Definition str_exn (e : exn) : string :=
  match e with
  | PermissionError => "Permission denied"
  | NotADirectoryError => "Not a directory"
  | OtherError msg => msg
  end.

Module Script.

Definition ARCHIVE_BASE : string := "/path/to/your/archive".
Definition BATCH_SIZE : Z := 25.
Definition MAX_FILES_PER_RUN : Z := 500.

Section ProcessFile.

(** The console [process_file] prints to: [print line w] gives the
    exception that printing raises, if it raises, and the console after. *)
Variable Console : Type.
Variable print : string -> Console -> option exn * Console.

(** [process_file(file_path)], lines 55-64: the name is printed and the
    result is [True] (the pause leaves the console as it is); when printing
    raises, the handler prints the error and the result is [False]; an
    exception raised in the handler leaves the function. *)
Definition process_file (file_path : Path) (w : Console)
  : outcome * Console :=
  match print ("   Processing: " ++ name file_path)%string w with
  | (None, w1) => (Returns true, w1)
  | (Some e, w1) =>
      match print ("   Error: " ++ str_exn e)%string w1 with
      | (None, w2) => (Returns false, w2)
      | (Some e', w2) => (Raises e', w2)
      end
  end.

Definition process_directory_optimized :=
  process_directory_optimized Console process_file
    BATCH_SIZE MAX_FILES_PER_RUN.

Definition main :=
  main Console process_file BATCH_SIZE MAX_FILES_PER_RUN ARCHIVE_BASE.

End ProcessFile.

(** A console that takes every line. *)
Definition print_line (line : string) (w : list string)
  : option exn * list string :=
  (None, w ++ [line]).

End Script.

(** *** Operations and sources for examples *)

(** An operation that succeeds on every candidate. *)
Definition always_true (f : Path) (w : unit) : outcome * unit :=
  (Returns true, w).

(** An operation that fails on the names in [bad], raises on the names in
    [broken] and succeeds on the others. *)
Definition by_name (bad broken : list string) (f : Path) (w : unit)
  : outcome * unit :=
  if existsb (String.eqb (name f)) broken then (Raises (OtherError "broken"), w)
  else if existsb (String.eqb (name f)) bad then (Returns false, w)
  else (Returns true, w).

(** [n] candidates [f1], ..., named by a unary numeral. *)
Fixpoint candidates (n : nat) : list Path :=
  match n with
  | O => []
  | S n' => candidates n' ++ [[String.concat "" (repeat "i" (S n'))]]
  end.

(** The candidates pulled and the calls made in the course of [main]. *)
Definition pulled_in_main {World : Type}
  (r : list output * option (state World)) : list Path :=
  match snd r with
  | Some s => pulled s
  | None => []
  end.

Definition calls_in_main {World : Type}
  (r : list output * option (state World)) : list (Path * outcome) :=
  match snd r with
  | Some s => calls s
  | None => []
  end.

(* ===================================================================== *)
(** ** What holds of every state of a run *)

(** The call returned a truth value; it returned [b]. *)
Definition is_return (c : Path * outcome) : bool :=
  match snd c with
  | Returns _ => true
  | Raises _ => false
  end.

Definition returned_with (b : bool) (c : Path * outcome) : bool :=
  match snd c with
  | Returns b' => Bool.eqb b b'
  | Raises _ => false
  end.

(** The number of calls that returned [b]. *)
Definition results (b : bool) (cs : list (Path * outcome)) : Z :=
  Z.of_nat (List.length (filter (returned_with b) cs)).

(** The progress lines among what was printed. *)
Definition is_batch_line (o : output) : bool :=
  match o with
  | OutBatch _ _ _ => true
  | _ => false
  end.

Definition batch_lines (out : list output) : list output :=
  filter is_batch_line out.

(** The steps a state still needs, at most. *)
Definition steps_left {World : Type} (s : state World) : nat :=
  match pc s with
  | AtPull => 3 * List.length (source s) + List.length (batch s) + 3
  | InFlush rest => 3 * List.length (source s) + List.length rest + 4
  | AfterLoop => List.length (batch s) + 2
  | InTail rest => List.length rest + 1
  | Returned => 0
  | Escaped _ => 0
  end.

(** The history agrees with the variables: the candidates pulled are
    those the generator no longer holds; the counters count the calls that
    returned true and false; the count of batches counts the progress
    lines; the candidates pulled are those passed to the operation
    followed by those waiting in the batch; during a flush the candidates
    of the batch that are done are the last ones passed to the operation;
    a call that raised is the last one. *)
Definition history_ok {World : Type} (src : list Path) (s : state World)
  : Prop :=
  pulled s ++ source s = src
  /\ success (st s) = results true (calls s)
  /\ errors (st s) = results false (calls s)
  /\ batch_count s = Z.of_nat (List.length (batch_lines (stdout s)))
  /\ match pc s with
     | AtPull =>
         map fst (calls s) ++ batch s = pulled s
         /\ forallb is_return (calls s) = true
         /\ left_by s = None
     | InFlush rest =>
         map fst (calls s) ++ rest = pulled s
         /\ (exists prev done,
               map fst (calls s) = prev ++ done /\ batch s = done ++ rest)
         /\ forallb is_return (calls s) = true
         /\ left_by s = None
     | AfterLoop =>
         map fst (calls s) ++ batch s = pulled s
         /\ forallb is_return (calls s) = true
         /\ (left_by s = Some Exhausted /\ source s = []
             \/ left_by s = Some SafetyLimit /\ batch s = [])
     | InTail rest =>
         map fst (calls s) ++ rest = pulled s
         /\ (exists prev done,
               map fst (calls s) = prev ++ done /\ batch s = done ++ rest)
         /\ forallb is_return (calls s) = true
         /\ left_by s = Some Exhausted /\ source s = []
     | Returned =>
         map fst (calls s) = pulled s
         /\ forallb is_return (calls s) = true
         /\ (left_by s = Some Exhausted /\ source s = []
             \/ left_by s = Some SafetyLimit)
     | Escaped e =>
         exists cs f rest,
           calls s = cs ++ [(f, Raises e)]
           /\ forallb is_return cs = true
           /\ map fst (calls s) ++ rest = pulled s
           /\ left_by s <> Some SafetyLimit
     end.

(** With a batch size of at least one: the batch holds fewer candidates
    than the batch size while it is filled and in the tail, exactly that
    many while it is flushed in the main loop; outside a flush the calls
    made are whole batches. *)
Definition batches_ok {World : Type} (BATCH_SIZE : Z) (s : state World)
  : Prop :=
  let len (l : list Path) := Z.of_nat (List.length l) in
  let ncalls := Z.of_nat (List.length (calls s)) in
  match pc s with
  | AtPull =>
      len (batch s) < BATCH_SIZE /\ ncalls = BATCH_SIZE * batch_count s
  | InFlush rest =>
      len (batch s) = BATCH_SIZE
      /\ ncalls + len rest = BATCH_SIZE * (batch_count s + 1)
  | AfterLoop =>
      len (batch s) < BATCH_SIZE /\ ncalls = BATCH_SIZE * batch_count s
  | InTail rest =>
      len (batch s) < BATCH_SIZE
  | Returned =>
      batch s = []
      /\ (left_by s = Some SafetyLimit ->
          ncalls = BATCH_SIZE * batch_count s)
  | Escaped _ =>
      len (batch s) <= BATCH_SIZE
  end.

(** With a limit of at least one as well: the count of successes is below
    the limit whenever a candidate is pulled, and stays within one batch of
    it. *)
Definition limit_ok {World : Type} (BATCH_SIZE MAX_FILES_PER_RUN : Z)
  (s : state World) : Prop :=
  match pc s with
  | AtPull => success (st s) < MAX_FILES_PER_RUN
  | InFlush rest =>
      success (st s) + Z.of_nat (List.length rest)
      <= MAX_FILES_PER_RUN - 1 + BATCH_SIZE
  | AfterLoop | Returned =>
      left_by s = Some SafetyLimit ->
      MAX_FILES_PER_RUN <= success (st s)
      <= MAX_FILES_PER_RUN + BATCH_SIZE - 1
  | InTail _ => True
  | Escaped _ => True
  end.

(* ===================================================================== *)
(** ** Definitions for the further properties *)

(** Every character of the text is a decimal digit. *)
Definition all_digits (t : Unicode.text) : bool := forallb Name.is_digit t.

(** Every byte of the string is one of the digits [0]..[9]. *)
Fixpoint ascii_digits (s : string) : bool :=
  match s with
  | EmptyString => true
  | String c s' => Unicode.between 48 57 (Unicode.byte c) && ascii_digits s'
  end.

(** The depth of the path [p] below [root]: the number of components
    between the two. *)
Definition depth_below (root p : Path) : Z :=
  Z.of_nat (List.length p) - Z.of_nat (List.length root) - 1.

(** Calling the per-item operation on the candidates of a list, one after
    the other, each call in the world the call before has left, up to the
    first call that raises: the calls with what they did, and the world at
    the end. *)
Fixpoint replay {World : Type}
  (process_file : Path -> World -> outcome * World)
  (fs : list Path) (w : World) : list (Path * outcome) * World :=
  match fs with
  | [] => ([], w)
  | f :: fs' =>
      match process_file f w with
      | (Returns b, w') =>
          let (cs, w'') := replay process_file fs' w' in
          ((f, Returns b) :: cs, w'')
      | (Raises e, w') => ([(f, Raises e)], w')
      end
  end.

(** The warnings of the safety limit among what was printed. *)
Definition is_limit_line (o : output) : bool :=
  match o with
  | OutLimit _ => true
  | _ => false
  end.

Definition limit_lines (out : list output) : list output :=
  filter is_limit_line out.

(** A candidate is pulled only while the count of successes is below the
    limit. *)
Definition pull_ok {World : Type} (MAX_FILES_PER_RUN : Z) (s : state World)
  : Prop :=
  pc s = AtPull -> success (st s) < MAX_FILES_PER_RUN.

(** The calls made and the world are those of [replay] on the candidates
    passed so far, from the world [w0] the run started in. *)
Definition replay_ok {World : Type}
  (process_file : Path -> World -> outcome * World) (w0 : World)
  (s : state World) : Prop :=
  replay process_file (map fst (calls s)) w0 = (calls s, world s).

(** In the tail and after it, the calls made are the whole batches counted
    by [batch_count] and fewer than [BATCH_SIZE] more. *)
Definition tail_ok {World : Type} (BATCH_SIZE : Z) (s : state World) : Prop :=
  let ncalls := Z.of_nat (List.length (calls s)) in
  match pc s with
  | InTail rest =>
      BATCH_SIZE * batch_count s <= ncalls
      /\ ncalls + Z.of_nat (List.length rest)
         < BATCH_SIZE * batch_count s + BATCH_SIZE
  | Returned =>
      left_by s = Some Exhausted ->
      BATCH_SIZE * batch_count s <= ncalls
      < BATCH_SIZE * batch_count s + BATCH_SIZE
  | _ => True
  end.

(** The progress line of index [i] (from 0) is numbered [i + 1] and its two
    counts add up to that many batches. *)
Definition lines_ok {World : Type} (BATCH_SIZE : Z) (s : state World) : Prop :=
  forall i line,
    nth_error (batch_lines (stdout s)) i = Some line ->
    exists su er,
      line = OutBatch (Z.of_nat i + 1) su er
      /\ su + er = BATCH_SIZE * (Z.of_nat i + 1)
      /\ 0 <= su /\ 0 <= er.

(** The warning of the safety limit has been printed, once and as the last
    line, when the loop was left by the limit, and not otherwise. *)
Definition limit_line_ok {World : Type} (MAX_FILES_PER_RUN : Z)
  (s : state World) : Prop :=
  match left_by s with
  | Some SafetyLimit =>
      exists before,
        stdout s = before ++ [OutLimit MAX_FILES_PER_RUN]
        /\ limit_lines before = []
  | _ => limit_lines (stdout s) = []
  end.

(** For an operation that returns true on every candidate: no error is
    counted, no exception escapes, and once the generator is exhausted the
    whole batches counted stay below the limit. *)
Definition all_true_ok {World : Type} (BATCH_SIZE MAX_FILES_PER_RUN : Z)
  (s : state World) : Prop :=
  errors (st s) = 0
  /\ escaped s = false
  /\ (left_by s = Some Exhausted ->
      BATCH_SIZE * batch_count s < MAX_FILES_PER_RUN).

(* ===================================================================== *)
(** ** The category folders (scripts/create-subdirectories.py)

    The script looks at year folders of the archive and creates in each
    the folders of the standard categories that are missing.  The file
    system is taken by the paths that exist in it; the console takes every
    line; decades and categories are plain names, so that [/] on paths
    adds one component.  A line typed at a prompt is held in UTF-8, as a
    file name is. *)

From Stdlib Require DecimalString.

Module Subdirs.

Definition ARCHIVE_BASE : string :=
  "/Users/andreasdietzel/Library/Mobile Documents/com~apple~CloudDocs/DateiArchiv/Archiv".

Definition CATEGORIES : list string :=
  [ "01_Finanzen"; "02_Vertraege"; "03_Gesundheit"; "04_Versicherungen";
    "05_Steuern"; "06_Reisen"; "07_Beruf"; "08_Bildung"; "09_Auto";
    "10_Wohnen"; "99_Sonstiges" ].

Definition YEARS_NEED_SUBDIRS : list (string * list Z) :=
  [ ("Nuller", [2004; 2005; 2006; 2007; 2008; 2009]);
    ("Zehner", [2011; 2014; 2015; 2016; 2017; 2018; 2019]);
    ("Zwanziger", [2020; 2021; 2022; 2023; 2024; 2025]) ].

(** [str(year)] *)
Definition str (year : Z) : string :=
  DecimalString.NilZero.string_of_int (Z.to_int year).

(** The paths that exist. *)
Definition files : Type := list Path.

Definition path_eq_dec : forall p q : Path, {p = q} + {p <> q} :=
  list_eq_dec string_dec.

(** [p.exists()] *)
Definition path_exists (fs : files) (p : Path) : bool :=
  if in_dec path_eq_dec p fs then true else false.

(** The paths from the first component of [p] down to [p] itself. *)
Fixpoint prefixes (p : Path) : list Path :=
  match p with
  | [] => []
  | n :: p' => [n] :: map (cons n) (prefixes p')
  end.

Definition add_missing (fs : files) (q : Path) : files :=
  if path_exists fs q then fs else fs ++ [q].

(** [stats = {'created': 0, 'existing': 0, 'skipped': 0}] *)
Record counts := { created : Z; existing : Z; skipped : Z }.

Definition zero : counts := {| created := 0; existing := 0; skipped := 0 |}.

(** [overall_stats[k] += stats[k]] for the three keys, lines 110-112. *)
Definition plus (a b : counts) : counts :=
  {| created := created a + created b;
     existing := existing a + existing b;
     skipped := skipped a + skipped b |}.

(** The lines the script prints. *)
Inductive line :=
| LYearMissing (decade : string) (year : Z)     (* line 39 *)
| LYear (decade : string) (year : Z)            (* line 42 *)
| LExisting (category : string)                 (* line 50 *)
| LCreated (category : string)                  (* line 56 *)
| LFailed (category : string) (e : exn)         (* line 60 *)
| LWould (category : string)                    (* line 63 *)
| LBanner (categories : nat)                    (* lines 69-73 *)
| LChoose                                       (* lines 76-78 *)
| LAborted                                      (* lines 84, 95 *)
| LDryRunMode                                   (* line 88 *)
| LRealMode                                     (* lines 90-91 *)
| LRule                                         (* line 98 *)
| LDecade (decade : string)                     (* lines 104-106 *)
| LSummary (dry_run : bool) (overall : counts)  (* lines 117-126 *)
| LNextStep                                     (* lines 129-131 *)
| LEnd.                                         (* line 133 *)

Section FileSystem.

(** What the system refuses: [mkdir_refused fs p] is the exception that
    creating [p] raises in the file system [fs], if it raises. *)
Variable mkdir_refused : files -> Path -> option exn.

(** [p.mkdir(parents=True, exist_ok=True)]: the exception raised, if any,
    and the file system after.  When nothing is refused, [p] exists after,
    with every path above it; a refusal leaves the file system as it
    is. *)
Definition mkdir (p : Path) (fs : files) : option exn * files :=
  match mkdir_refused fs p with
  | Some e => (Some e, fs)
  | None => (None, fold_left add_missing (prefixes p) fs)
  end.

(** Lines 46-64: the loop [for category in CATEGORIES], over the
    categories [cats] that are left, with the counters, the lines printed
    and the file system so far. *)
Fixpoint for_category_in (year_path : Path) (dry_run : bool)
  (cats : list string) (stats : counts) (out : list line) (fs : files)
  : counts * list line * files :=
  match cats with
  | [] => (stats, out, fs)
  | category :: cats' =>
      let category_path := joinpath year_path category in
      if path_exists fs category_path then
        for_category_in year_path dry_run cats'
          {| created := created stats; existing := existing stats + 1;
             skipped := skipped stats |}
          (out ++ [LExisting category]) fs
      else if negb dry_run then
        match mkdir category_path fs with
        | (None, fs') =>
            for_category_in year_path dry_run cats'
              {| created := created stats + 1; existing := existing stats;
                 skipped := skipped stats |}
              (out ++ [LCreated category]) fs'
        | (Some e, fs') =>
            for_category_in year_path dry_run cats'
              {| created := created stats; existing := existing stats;
                 skipped := skipped stats + 1 |}
              (out ++ [LFailed category e]) fs'
        end
      else
        for_category_in year_path dry_run cats'
          {| created := created stats + 1; existing := existing stats;
             skipped := skipped stats |}
          (out ++ [LWould category]) fs
  end.

(** [Path(ARCHIVE_BASE) / decade / str(year)] *)
Definition year_path (decade : string) (year : Z) : Path :=
  joinpath (joinpath [ARCHIVE_BASE] decade) (str year).

(** [create_categories_for_year(decade, year, dry_run)] in the file system
    [fs]: the counters returned, the lines printed and the file system
    after. *)
Definition create_categories_for_year
  (decade : string) (year : Z) (dry_run : bool) (fs : files)
  : counts * list line * files :=
  if negb (path_exists fs (year_path decade year)) then
    (zero, [LYearMissing decade year], fs)
  else
    for_category_in (year_path decade year) dry_run CATEGORIES
      zero [LYear decade year] fs.

(** Lines 108-112: the loop [for year in years]. *)
Fixpoint for_year_in (decade : string) (dry_run : bool) (years : list Z)
  (overall : counts) (out : list line) (fs : files)
  : counts * list line * files :=
  match years with
  | [] => (overall, out, fs)
  | year :: years' =>
      match create_categories_for_year decade year dry_run fs with
      | (stats, out', fs') =>
          for_year_in decade dry_run years'
            (plus overall stats) (out ++ out') fs'
      end
  end.

(** Lines 103-112: the loop [for decade, years in YEARS_NEED_SUBDIRS]. *)
Fixpoint for_decade_in (dry_run : bool) (decades : list (string * list Z))
  (overall : counts) (out : list line) (fs : files)
  : counts * list line * files :=
  match decades with
  | [] => (overall, out, fs)
  | (decade, years) :: decades' =>
      match for_year_in decade dry_run years overall
              (out ++ [LDecade decade]) fs with
      | (overall', out', fs') =>
          for_decade_in dry_run decades' overall' out' fs'
      end
  end.

(** What [input()] gives: the line typed, or the exception of an
    interrupt or of the end of the input. *)
Inductive key :=
| Typed (s : string)
| CtrlC
| EndOfFile.

(** How [main] ends: it runs to its end with the totals, it returns after
    an interrupt at a prompt, or [EOFError] leaves it. *)
Inductive ending :=
| Completed (dry_run : bool) (overall : counts)
| Aborted
| EndOfInput.

(** [s.lstrip()], [s.rstrip()] and [s.strip()]: the white space taken
    away is that of [str.isspace], the no-break space and the other
    spaces beyond ASCII included. *)
Fixpoint lstrip (s : Unicode.text) : Unicode.text :=
  match s with
  | [] => []
  | c :: s' => if Unicode.is_space c then lstrip s' else s
  end.

Fixpoint rstrip (s : Unicode.text) : Unicode.text :=
  match s with
  | [] => []
  | c :: s' =>
      match rstrip s' with
      | [] => if Unicode.is_space c then [] else [c]
      | t => c :: t
      end
  end.

Definition strip (s : Unicode.text) : Unicode.text := rstrip (lstrip s).

(** Lines 98-133: the work proper and the summary. *)
Definition work (dry_run : bool) (out : list line) (fs : files)
  : list line * files * ending :=
  match for_decade_in dry_run YEARS_NEED_SUBDIRS zero (out ++ [LRule]) fs with
  | (overall, out', fs') =>
      let out'' := out' ++ [LSummary dry_run overall] in
      ((if negb dry_run && (0 <? created overall)
        then out'' ++ [LNextStep] else out'') ++ [LEnd],
       fs', Completed dry_run overall)
  end.

(** [main()], the keyboard giving [keys] to the successive calls of
    [input()], an exhausted keyboard being at its end. *)
Definition main (keys : list key) (fs : files) : list line * files * ending :=
  let out := [LBanner (List.length CATEGORIES); LChoose] in
  match keys with
  | CtrlC :: _ => (out ++ [LAborted], fs, Aborted)
  | [] | EndOfFile :: _ => (out, fs, EndOfInput)
  | Typed answer :: keys' =>
      let choice := strip (Unicode.decode answer) in
      let dry_run := Unicode.eqb choice (Unicode.decode "1") in
      if dry_run then work true (out ++ [LDryRunMode]) fs
      else
        match keys' with
        | CtrlC :: _ => (out ++ [LRealMode; LAborted], fs, Aborted)
        | [] | EndOfFile :: _ => (out ++ [LRealMode], fs, EndOfInput)
        | Typed _ :: _ => work false (out ++ [LRealMode]) fs
        end
  end.

End FileSystem.

(** A system that refuses nothing, and one that refuses the paths of a
    list. *)
Definition nothing_refused (fs : files) (p : Path) : option exn := None.

Definition refused (ps : list Path) (fs : files) (p : Path) : option exn :=
  if in_dec path_eq_dec p ps then Some PermissionError else None.

End Subdirs.

(** The year folders the script looks at, decade by decade. *)
Definition year_folders : list Path :=
  flat_map (fun '(decade, years) => map (Subdirs.year_path decade) years)
    Subdirs.YEARS_NEED_SUBDIRS.

(** The sum of the three counters. *)
Definition total (c : Subdirs.counts) : Z :=
  Subdirs.created c + Subdirs.existing c + Subdirs.skipped c.

(* ===================================================================== *)
(** ** Properties of the traversal *)

(** Induction on directory trees, with the hypothesis for every entry of a
    directory. *)
Lemma node_ind' (P : node -> Prop) :
  P File -> P Other ->
  (forall es err, Forall (fun e => P (snd e)) es -> P (Dir es err)) ->
  forall n, P n.
Proof.
  intros HF HO HD.
  fix IH 1.
  intros [ | | es err].
  - exact HF.
  - exact HO.
  - apply HD.
    induction es as [ | [n c] es IHes].
    + constructor.
    + constructor; [ exact (IH c) | exact IHes ].
Qed.

Lemma name_joinpath (p : Path) (n : string) : name (joinpath p n) = n.
Proof. unfold name, joinpath. apply last_last. Qed.

Lemma find_unformatted_files_generator_eq dir_path d max_depth current_depth :
  find_unformatted_files_generator dir_path d max_depth current_depth =
  if current_depth >? max_depth then ([], Normal)
  else
    except_pass
      match d with
      | Dir entries err =>
          for_item_in_iterdir
            (fun item item_node =>
               find_unformatted_files_generator
                 item item_node max_depth (current_depth + 1))
            dir_path err entries 0
      | _ => ([], Raised NotADirectoryError)
      end.
Proof. destruct d; reflexivity. Qed.

Lemma except_pass_fst body : fst (except_pass body) = fst body.
Proof. destruct body as [ys [ | [ | | msg]]]; reflexivity. Qed.

Lemma except_pass_snd body : snd (except_pass body) = Normal.
Proof. destruct body as [ys [ | [ | | msg]]]; reflexivity. Qed.

(** Whatever happens below, the generator ends normally. *)
Lemma generator_ends_normally dir_path d max_depth current_depth :
  snd (find_unformatted_files_generator dir_path d max_depth current_depth)
  = Normal.
Proof.
  rewrite find_unformatted_files_generator_eq.
  destruct (current_depth >? max_depth); [ reflexivity | ].
  apply except_pass_snd.
Qed.

Section LoopFacts.

Variable visit : Path -> node -> generated.
Variable dir_path : Path.
Hypothesis visit_normal : forall p c, snd (visit p c) = Normal.

Lemma for_loop_no_error es i :
  for_item_in_iterdir visit dir_path None es i
  = (flat_map (yields_of_entry visit dir_path) es, Normal).
Proof.
  revert i. induction es as [ | [n c] es IH]; intro i; [ reflexivity | ].
  cbn [for_item_in_iterdir raises_at flat_map yields_of_entry].
  rewrite name_joinpath. fold (hidden n).
  destruct (hidden n); [ apply IH | ].
  destruct (is_dir c) eqn:Hd.
  - pose proof (visit_normal (joinpath dir_path n) c) as Hn.
    destruct (visit (joinpath dir_path n) c) as [ys cmp].
    cbn in Hn. subst cmp. rewrite IH. reflexivity.
  - fold (allowed_extension n). fold (formatted n).
    destruct (is_file c && allowed_extension n); cbn [andb].
    + destruct (formatted n); cbn [negb]; rewrite IH; reflexivity.
    + apply IH.
Qed.

Lemma for_loop_error es i k e :
  (i <= k)%nat ->
  fst (for_item_in_iterdir visit dir_path (Some (k, e)) es i)
  = fst (for_item_in_iterdir visit dir_path None (firstn (k - i) es) i).
Proof.
  revert i. induction es as [ | [n c] es IH]; intros i Hik.
  - rewrite firstn_nil. cbn. destruct (Nat.eqb k i); reflexivity.
  - cbn [for_item_in_iterdir raises_at].
    destruct (Nat.eqb_spec k i) as [-> | Hne].
    + rewrite Nat.sub_diag. reflexivity.
    + assert (Hlt : (S i <= k)%nat) by lia.
      replace (k - i)%nat with (S (k - S i)) by lia.
      cbn [firstn for_item_in_iterdir raises_at].
      specialize (IH (S i) Hlt).
      destruct (Name.startswith "." (name (joinpath dir_path n)));
        [ exact IH | ].
      destruct (is_dir c).
      * destruct (visit (joinpath dir_path n) c) as [ys [ | e']];
          [ | reflexivity ].
        destruct (for_item_in_iterdir _ _ (Some (k, e)) es (S i)).
        destruct (for_item_in_iterdir _ _ None _ (S i)).
        cbn in *. congruence.
      * destruct (is_file c && _).
        -- destruct (negb _); [ | exact IH ].
           destruct (for_item_in_iterdir _ _ (Some (k, e)) es (S i)).
           destruct (for_item_in_iterdir _ _ None _ (S i)).
           cbn in *. congruence.
        -- exact IH.
Qed.

End LoopFacts.

(** Below the depth bound a directory yields what the entries delivered
    by its listing yield, one after the other. *)
Lemma yielded_Dir dir_path es err max_depth current_depth :
  current_depth <= max_depth ->
  fst (find_unformatted_files_generator
         dir_path (Dir es err) max_depth current_depth)
  = flat_map
      (yields_of_entry
         (fun item item_node =>
            find_unformatted_files_generator
              item item_node max_depth (current_depth + 1))
         dir_path)
      (delivered (Dir es err)).
Proof.
  intro Hle.
  rewrite find_unformatted_files_generator_eq.
  destruct (Z.gtb_spec current_depth max_depth) as [Hgt | _]; [ lia | ].
  rewrite except_pass_fst.
  assert (Hn : forall p c,
             snd (find_unformatted_files_generator
                    p c max_depth (current_depth + 1)) = Normal)
    by (intros; apply generator_ends_normally).
  destruct err as [[k e] | ]; cbn [delivered].
  - rewrite for_loop_error by lia.
    rewrite Nat.sub_0_r, for_loop_no_error by exact Hn. reflexivity.
  - rewrite for_loop_no_error by exact Hn. reflexivity.
Qed.

Lemma yielded_too_deep dir_path d max_depth current_depth :
  max_depth < current_depth ->
  fst (find_unformatted_files_generator dir_path d max_depth current_depth)
  = [].
Proof.
  intro Hlt.
  rewrite find_unformatted_files_generator_eq.
  destruct (Z.gtb_spec current_depth max_depth) as [_ | Hle];
    [ reflexivity | lia ].
Qed.

Lemma yielded_not_Dir dir_path d max_depth current_depth :
  is_dir d = false ->
  fst (find_unformatted_files_generator dir_path d max_depth current_depth)
  = [].
Proof.
  intro Hd.
  rewrite find_unformatted_files_generator_eq.
  destruct (current_depth >? max_depth); [ reflexivity | ].
  destruct d; [ reflexivity | reflexivity | discriminate ].
Qed.

(** A directory whose listing raises after [k] entries behaves as one that
    holds these [k] entries and raises nothing. *)
Lemma failing_directory_as_its_delivered_part
  dir_path es k e max_depth current_depth :
  find_unformatted_files_generator
    dir_path (Dir es (Some (k, e))) max_depth current_depth
  = find_unformatted_files_generator
      dir_path (Dir (firstn k es) None) max_depth current_depth.
Proof.
  apply injective_projections.
  - destruct (Z_lt_le_dec max_depth current_depth) as [Hdeep | Hle].
    + rewrite !yielded_too_deep by exact Hdeep. reflexivity.
    + rewrite !yielded_Dir by exact Hle. reflexivity.
  - rewrite !generator_ends_normally. reflexivity.
Qed.

Lemma delivered_listing d e : In e (delivered d) -> In e (listing d).
Proof.
  destruct d as [ | | es [[k x] | ]]; cbn; try tauto.
  intro H.
  rewrite <- (firstn_skipn k es). apply in_or_app. left. exact H.
Qed.



(** A path that ends on a file starts on a file only when it is empty. *)
Lemma at_path_File_inv view d rel :
  at_path view d rel File ->
  (d = File /\ rel = [])
  \/ (exists n c rel', rel = n :: rel' /\ In (n, c) (view d)
                       /\ at_path view c rel' File).
Proof.
  intro H. inversion H; subst.
  - left. split; reflexivity.
  - right. do 3 eexists. repeat split; eassumption.
Qed.

Lemma delivered_is_dir d e : In e (delivered d) -> is_dir d = true.
Proof. destruct d; cbn; [ tauto | tauto | reflexivity ]. Qed.

(** The candidates yielded at a directory are the files below it that the
    listings deliver and the filter lets through, down to the depth that
    is left. *)
Lemma yielded_iff d :
  forall dir_path max_depth current_depth p,
    In p (fst (find_unformatted_files_generator
                 dir_path d max_depth current_depth))
    <-> exists rel,
          p = dir_path ++ rel
          /\ matching delivered d (max_depth - current_depth) rel.
Proof.
  induction d as [ | | es err IH] using node_ind';
    intros dir_path max_depth current_depth p.
  - rewrite yielded_not_Dir by reflexivity. split; [ intros [] | ].
    intros (rel & _ & Hat & _ & _ & Hext & _).
    apply at_path_File_inv in Hat.
    destruct Hat as [[_ ->] | (n & c & rel' & _ & [] & _)].
    discriminate Hext.
  - rewrite yielded_not_Dir by reflexivity. split; [ intros [] | ].
    intros (rel & _ & Hat & _).
    apply at_path_File_inv in Hat.
    destruct Hat as [[Hd _] | (n & c & rel' & _ & [] & _)].
    discriminate Hd.
  - destruct (Z_lt_le_dec max_depth current_depth) as [Hdeep | Hle].
    + rewrite yielded_too_deep by exact Hdeep. split; [ intros [] | ].
      intros (rel & _ & Hat & _ & Hdepth & _).
      apply at_path_File_inv in Hat.
      destruct Hat as [[Hd _] | (n & c & rel' & -> & _ & _)];
        [ discriminate Hd | ].
      unfold depth in Hdepth. cbn [List.length] in Hdepth. lia.
    + rewrite yielded_Dir by exact Hle. rewrite in_flat_map. split.
      * intros ([n c] & Hin & Hp).
        assert (IHc := proj1 (Forall_forall _ _) IH (n, c)
                         (delivered_listing _ _ Hin)).
        cbn [snd] in IHc.
        cbn [yields_of_entry] in Hp.
        destruct (hidden n) eqn:Hh; [ destruct Hp | ].
        destruct (is_dir c) eqn:Hd.
        -- apply IHc in Hp.
           destruct Hp as (rel' & -> & Hat & Hhid & Hdepth & Hext & Hfmt).
           exists (n :: rel'). unfold joinpath. rewrite <- app_assoc.
           split; [ reflexivity | ].
           destruct (at_path_File_inv _ _ _ Hat)
             as [[-> _] | (n' & c' & rel'' & -> & _ & _)];
             [ discriminate Hd | ].
           repeat split.
           ++ econstructor; eassumption.
           ++ constructor; assumption.
           ++ unfold depth in *. cbn [List.length] in *. lia.
           ++ exact Hext.
           ++ exact Hfmt.
        -- destruct (is_file c) eqn:Hf; cbn [andb] in Hp;
             [ | destruct Hp ].
           destruct (allowed_extension n) eqn:Hext; cbn [andb] in Hp;
             [ | destruct Hp ].
           destruct (formatted n) eqn:Hfmt; cbn [negb] in Hp;
             [ destruct Hp | ].
           destruct Hp as [<- | []].
           destruct c; try discriminate Hf.
           exists [n]. split; [ reflexivity | ].
           repeat split.
           ++ econstructor; [ exact Hin | constructor ].
           ++ constructor; [ exact Hh | constructor ].
           ++ unfold depth. cbn [List.length]. lia.
           ++ exact Hext.
           ++ exact Hfmt.
      * intros (rel & -> & Hat & Hhid & Hdepth & Hext & Hfmt).
        destruct (at_path_File_inv _ _ _ Hat)
          as [[Hd _] | (n & c & rel' & -> & Hin & Hat')];
          [ discriminate Hd | ].
        exists (n, c). split; [ exact Hin | ].
        assert (IHc := proj1 (Forall_forall _ _) IH (n, c)
                         (delivered_listing _ _ Hin)).
        cbn [snd] in IHc.
        inversion Hhid as [ | ? ? Hh Hhid']; subst.
        cbn [yields_of_entry]. rewrite Hh.
        destruct (at_path_File_inv _ _ _ Hat')
          as [[-> ->] | (n' & c' & rel'' & -> & Hin' & _)].
        -- cbn [is_dir is_file last] in *.
           rewrite Hext, Hfmt. left. reflexivity.
        -- rewrite (delivered_is_dir _ _ Hin').
           apply IHc. exists (n' :: rel'').
           unfold joinpath. rewrite <- app_assoc.
           split; [ reflexivity | ].
           repeat split.
           ++ exact Hat'.
           ++ exact Hhid'.
           ++ unfold depth in *. cbn [List.length] in *. lia.
           ++ exact Hext.
           ++ exact Hfmt.
Qed.

Lemma yielded_below d dir_path max_depth current_depth p :
  In p (fst (find_unformatted_files_generator
               dir_path d max_depth current_depth)) ->
  exists rel, p = dir_path ++ rel.
Proof.
  intro H. apply yielded_iff in H. destruct H as (rel & -> & _).
  exists rel. reflexivity.
Qed.

(** Lists built entry by entry from a listing with distinct names, every
    path of an entry's list running through that entry, have no
    repetition. *)
Lemma NoDup_flat_map_entries (f : string * node -> list Path)
  (dir_path : Path) (es : list (string * node)) :
  NoDup (map fst es) ->
  (forall n c, In (n, c) es -> NoDup (f (n, c))) ->
  (forall n c p, In (n, c) es -> In p (f (n, c)) ->
                 exists rel, p = dir_path ++ n :: rel) ->
  NoDup (flat_map f es).
Proof.
  induction es as [ | [n c] es IH]; intros Hnames Hnd Hpre; cbn.
  - constructor.
  - cbn in Hnames. inversion Hnames as [ | ? ? Hnotin Hnames']; subst.
    apply NoDup_app.
    + apply Hnd. left. reflexivity.
    + apply IH.
      * exact Hnames'.
      * intros n' c' Hin. apply Hnd. right. exact Hin.
      * intros n' c' p Hin. apply Hpre. right. exact Hin.
    + intros p Hp Hp'.
      apply in_flat_map in Hp'. destruct Hp' as ([n' c'] & Hin' & Hp').
      destruct (Hpre n c p (or_introl eq_refl) Hp) as (rel & Hrel).
      destruct (Hpre n' c' p (or_intror Hin') Hp') as (rel' & Hrel').
      rewrite Hrel in Hrel'. apply app_inv_head in Hrel'.
      injection Hrel' as Hn _. subst n'.
      apply Hnotin. change n with (fst (n, c')). apply in_map. exact Hin'.
Qed.

Lemma unique_names_delivered es err :
  unique_names (Dir es err) ->
  NoDup (map fst (delivered (Dir es err)))
  /\ Forall (fun e => unique_names (snd e)) (delivered (Dir es err)).
Proof.
  intro H. inversion H as [ | | ? ? Hnd Hall]; subst.
  destruct err as [[k e] | ]; cbn [delivered]; [ | split; assumption ].
  rewrite <- (firstn_skipn k es) in Hnd, Hall.
  rewrite map_app in Hnd. apply NoDup_app_remove_r in Hnd.
  apply Forall_app in Hall. destruct Hall as [Hall _].
  split; assumption.
Qed.

(** No path is yielded twice. *)
Lemma yielded_NoDup d :
  forall dir_path max_depth current_depth,
    unique_names d ->
    NoDup (fst (find_unformatted_files_generator
                  dir_path d max_depth current_depth)).
Proof.
  induction d as [ | | es err IH] using node_ind';
    intros dir_path max_depth current_depth Hun.
  - rewrite yielded_not_Dir by reflexivity. constructor.
  - rewrite yielded_not_Dir by reflexivity. constructor.
  - destruct (Z_lt_le_dec max_depth current_depth) as [Hdeep | Hle].
    + rewrite yielded_too_deep by exact Hdeep. constructor.
    + rewrite yielded_Dir by exact Hle.
      destruct (unique_names_delivered _ _ Hun) as [Hnd Hall].
      apply NoDup_flat_map_entries with (dir_path := dir_path).
      * exact Hnd.
      * intros n c Hin. cbn [yields_of_entry].
        destruct (hidden n); [ constructor | ].
        destruct (is_dir c).
        -- apply (proj1 (Forall_forall _ _) IH (n, c)
                    (delivered_listing _ _ Hin)).
           apply (proj1 (Forall_forall _ _) Hall (n, c) Hin).
        -- destruct (is_file c && allowed_extension n && negb (formatted n)).
           ++ constructor; [ intros [] | constructor ].
           ++ constructor.
      * intros n c p Hin Hp. cbn [yields_of_entry] in Hp.
        destruct (hidden n); [ destruct Hp | ].
        destruct (is_dir c).
        -- apply yielded_below in Hp. destruct Hp as (rel & ->).
           exists rel. unfold joinpath. rewrite <- app_assoc. reflexivity.
        -- destruct (is_file c && allowed_extension n && negb (formatted n));
             [ | destruct Hp ].
           destruct Hp as [<- | []]. exists []. reflexivity.
Qed.



Lemma distinct_NoDup l : distinct l = true -> NoDup l.
Proof.
  induction l as [ | x l IH]; cbn; intro H; constructor.
  - apply andb_prop in H. destruct H as [H _].
    intro Hin. apply negb_true_iff in H.
    assert (Hex : existsb (String.eqb x) l = true).
    { apply existsb_exists. exists x. split; [ exact Hin | ].
      apply String.eqb_refl. }
    congruence.
  - apply andb_prop in H. destruct H as [_ H]. apply IH. exact H.
Qed.

Lemma unique_namesb_sound d : unique_namesb d = true -> unique_names d.
Proof.
  induction d as [ | | es err IH] using node_ind'; intro H.
  - constructor.
  - constructor.
  - cbn in H. apply andb_prop in H. destruct H as [Hd Hall].
    constructor; [ apply distinct_NoDup; exact Hd | ].
    rewrite forallb_forall in Hall.
    apply Forall_forall. intros [n c] Hin.
    apply (proj1 (Forall_forall _ _) IH (n, c) Hin).
    apply (Hall (n, c) Hin).
Qed.


(** *** Paths in a tree with distinct names *)




(* ===================================================================== *)
(** ** The traversal: claims *)

Example yielded_archive_example :
  yielded [] archive_example 3
  = [["a.pdf"]; ["sub"; "c.TXT"]; ["sub"; "f.docx"]].
Proof. reflexivity. Qed.

Example yielded_archive_example_depth_0 :
  yielded [] archive_example 0 = [["a.pdf"]].
Proof. reflexivity. Qed.

(** A date in the digits of another script marks a name as formatted, as
    one in the digits [0]..[9] does; a superscript is no decimal digit. *)
Example yielded_skips_full_width_date :
  yielded []
    (Dir [ ("２０２４-０１-０２_b.pdf", File);
           ("٢٠٢٤-٠١-٠٢_c.pdf", File);
           ("2024-01-0²_d.pdf", File) ] None) 3
  = [["2024-01-0²_d.pdf"]].
Proof. vm_compute. reflexivity. Qed.






(* ===================================================================== *)
(** ** Properties of the batch runner *)

Lemma results_snoc b cs c :
  results b (cs ++ [c])
  = results b cs + (if returned_with b c then 1 else 0).
Proof.
  unfold results. rewrite filter_app, length_app. cbn [filter].
  destruct (returned_with b c); cbn [List.length]; lia.
Qed.

Lemma results_total cs :
  forallb is_return cs = true ->
  results true cs + results false cs = Z.of_nat (List.length cs).
Proof.
  unfold results. induction cs as [ | [f o] cs IH]; [ reflexivity | ].
  cbn [forallb]. intro H. apply andb_prop in H.
  destruct H as [Ho Hcs]. specialize (IH Hcs).
  destruct o as [[ | ] | e]; [ | | discriminate Ho ];
    cbn [filter returned_with snd Bool.eqb List.length]; lia.
Qed.

Lemma batch_lines_app out out' :
  batch_lines (out ++ out') = batch_lines out ++ batch_lines out'.
Proof. apply filter_app. Qed.

Section RunnerFacts.

Variable World : Type.
Variable process_file : Path -> World -> outcome * World.
Variable BATCH_SIZE : Z.
Variable MAX_FILES_PER_RUN : Z.

Local Abbreviation step_ := (step World process_file BATCH_SIZE MAX_FILES_PER_RUN).
Local Abbreviation run_ := (run World process_file BATCH_SIZE MAX_FILES_PER_RUN).
Local Abbreviation pull_ := (pull World BATCH_SIZE).
Local Abbreviation end_of_flush_ := (end_of_flush World MAX_FILES_PER_RUN).
Local Abbreviation process_item_ := (process_item World process_file).

Lemma run_add n m s : run_ (n + m) s = run_ m (run_ n s).
Proof.
  revert s. induction n as [ | n IH]; intro s; [ reflexivity | ].
  cbn. apply IH.
Qed.

Lemma run_S n s : run_ (S n) s = step_ (run_ n s).
Proof.
  replace (S n) with (n + 1)%nat by lia. rewrite run_add. reflexivity.
Qed.

Lemma run_finished n s : finished s = true -> run_ n s = s.
Proof.
  intro H. induction n as [ | n IH]; [ reflexivity | ].
  cbn [run]. replace (step_ s) with s; [ exact IH | ].
  unfold finished in H. unfold step.
  destruct (pc s) as [ | [ | ] | | [ | ] | | ]; try discriminate H;
    reflexivity.
Qed.

(** *** Termination *)

Lemma steps_left_step s :
  finished s = false -> (steps_left (step_ s) < steps_left s)%nat.
Proof.
  destruct s as [c src b stt bc w out pl cs lb].
  unfold finished, steps_left, step. cbn.
  destruct c as [ | [ | f rest] | | [ | f rest] | | e]; intro Hf;
    try discriminate Hf; cbn.
  - unfold pull. cbn. destruct src as [ | f src]; cbn; [ lia | ].
    rewrite length_app. cbn [List.length].
    destruct (Z.of_nat _ >=? BATCH_SIZE); cbn;
      rewrite ?length_app; cbn [List.length]; lia.
  - unfold end_of_flush. cbn.
    destruct (success stt >=? MAX_FILES_PER_RUN); cbn; lia.
  - unfold process_item. cbn.
    destruct (process_file f w) as [[r | e] w']; cbn; lia.
  - destruct b; cbn; lia.
  - lia.
  - unfold process_item. cbn.
    destruct (process_file f w) as [[r | e] w']; cbn; lia.
Qed.

Lemma run_reaches_end n :
  forall s, (steps_left s <= n)%nat -> finished (run_ n s) = true.
Proof.
  induction n as [ | n IH]; intros s Hn.
  - cbn. destruct (finished s) eqn:Hf; [ reflexivity | ].
    pose proof (steps_left_step s Hf). lia.
  - destruct (finished s) eqn:Hf.
    + rewrite run_finished by exact Hf. exact Hf.
    + cbn [run]. apply IH. pose proof (steps_left_step s Hf). lia.
Qed.

(** The run over a source comes to its end: the function returns or an
    exception leaves it. *)
Lemma run_batches_finished dir_path src w :
  finished (run_batches World process_file BATCH_SIZE MAX_FILES_PER_RUN
              dir_path src w) = true.
Proof.
  unfold run_batches. apply run_reaches_end.
  unfold steps_left, initial, enough. cbn. lia.
Qed.

(** *** The invariants *)

Lemma history_ok_initial dir_path src w :
  history_ok src (initial World dir_path src w).
Proof.
  unfold history_ok, initial. cbn. repeat split.
Qed.

Lemma history_ok_process_item src (tail : bool) f rest s :
  let resume := if tail then InTail else InFlush in
  pc s = resume (f :: rest) ->
  history_ok src s -> history_ok src (process_item_ resume f rest s).
Proof.
  intros resume Hpc (Hsrc & Hs & He & Hbc & H).
  assert (Hcommon :
    map fst (calls s) ++ f :: rest = pulled s
    /\ (exists prev done,
          map fst (calls s) = prev ++ done /\ batch s = done ++ f :: rest)
    /\ forallb is_return (calls s) = true
    /\ left_by s <> Some SafetyLimit
    /\ (tail = true -> left_by s = Some Exhausted /\ source s = [])
    /\ (tail = false -> left_by s = None)).
  { rewrite Hpc in H. subst resume. destruct tail.
    - destruct H as (H1 & H2 & H3 & H4 & H5). rewrite H4.
      repeat split; try assumption; discriminate.
    - destruct H as (H1 & H2 & H3 & H4). rewrite H4.
      repeat split; try assumption; discriminate. }
  clear H.
  destruct Hcommon
    as (Hp & (prev & done & Hc & Hb) & Hret & Hlb & Htail & Hflush).
  unfold history_ok, process_item.
  destruct (process_file f (world s)) as [[b | e] w']; cbn.
  - rewrite !results_snoc. unfold returned_with, count. cbn [snd].
    repeat split.
    + exact Hsrc.
    + destruct b; cbn; lia.
    + destruct b; cbn; lia.
    + exact Hbc.
    + assert (Hp' : map fst (calls s ++ [(f, Returns b)]) ++ rest = pulled s)
        by (rewrite map_app, <- app_assoc; exact Hp).
      assert (Hb' : exists prev' done',
                   map fst (calls s ++ [(f, Returns b)]) = prev' ++ done'
                   /\ batch s = done' ++ rest).
      { exists prev, (done ++ [f]). rewrite map_app, Hc, <- !app_assoc.
        split; [ reflexivity | exact Hb ]. }
      assert (Hret' : forallb is_return (calls s ++ [(f, Returns b)]) = true)
        by (rewrite forallb_app, Hret; reflexivity).
      subst resume. destruct tail.
      * destruct (Htail eq_refl). repeat split; auto.
      * repeat split; auto.
  - rewrite !results_snoc. unfold returned_with. cbn [snd].
    repeat split.
    + exact Hsrc.
    + lia.
    + lia.
    + exact Hbc.
    + exists (calls s), f, rest. repeat split.
      * exact Hret.
      * rewrite map_app, <- app_assoc. exact Hp.
      * exact Hlb.
Qed.

Lemma history_ok_step src s : history_ok src s -> history_ok src (step_ s).
Proof.
  intro H. unfold step.
  destruct (pc s) as [ | [ | f rest] | | [ | f rest] | | e] eqn:Hpc.
  - (* pull *)
    destruct H as (Hsrc & Hs & He & Hbc & H). rewrite Hpc in H.
    destruct H as (Hp & Hret & Hlb).
    unfold history_ok, pull.
    destruct (source s) as [ | f src'] eqn:Hsource; cbn.
    + repeat split; auto.
    + repeat split; auto.
      * rewrite <- app_assoc. exact Hsrc.
      * destruct (Z.of_nat _ >=? BATCH_SIZE); cbn.
        -- repeat split; auto.
           ++ rewrite app_assoc, Hp. reflexivity.
           ++ exists (map fst (calls s)), [].
              rewrite app_nil_r. split; reflexivity.
        -- repeat split; auto.
           rewrite app_assoc, Hp. reflexivity.
  - (* end of a flush *)
    destruct H as (Hsrc & Hs & He & Hbc & H). rewrite Hpc in H.
    destruct H as (Hp & _ & Hret & Hlb).
    unfold history_ok, end_of_flush.
    destruct (success (st s) >=? MAX_FILES_PER_RUN); cbn;
      rewrite batch_lines_app, length_app; cbn;
      repeat split; auto; lia.
  - apply (history_ok_process_item src false); auto.
  - (* after the loop *)
    destruct H as (Hsrc & Hs & He & Hbc & H). rewrite Hpc in H.
    destruct H as (Hp & Hret & Hlb).
    unfold history_ok, after_loop. cbn.
    repeat split; auto.
    destruct (batch s) as [ | f b] eqn:Hb.
    + rewrite app_nil_r in Hp. repeat split; auto.
      destruct Hlb as [Hlb | [Hlb _]]; [ left | right ]; exact Hlb.
    + destruct Hlb as [[Hlb Hsource] | [_ Hnil]]; [ | discriminate Hnil ].
      repeat split; auto.
      exists (map fst (calls s)), []. rewrite app_nil_r. split; reflexivity.
  - (* end of the tail *)
    destruct H as (Hsrc & Hs & He & Hbc & H). rewrite Hpc in H.
    destruct H as (Hp & _ & Hret & Hlb & Hsource).
    unfold history_ok, end_of_tail. cbn.
    rewrite app_nil_r in Hp. repeat split; auto.
  - apply (history_ok_process_item src true); auto.
  - exact H.
  - exact H.
Qed.

Lemma history_ok_run src n :
  forall s, history_ok src s -> history_ok src (run_ n s).
Proof.
  induction n as [ | n IH]; intros s H; [ exact H | ].
  cbn [run]. apply IH. apply history_ok_step. exact H.
Qed.

Lemma batches_ok_initial dir_path src w :
  1 <= BATCH_SIZE -> batches_ok BATCH_SIZE (initial World dir_path src w).
Proof. intro HB. unfold batches_ok, initial. cbn. lia. Qed.

Lemma batches_ok_step src s :
  1 <= BATCH_SIZE ->
  history_ok src s ->
  batches_ok BATCH_SIZE s -> batches_ok BATCH_SIZE (step_ s).
Proof.
  intros HB (_ & _ & _ & _ & Hh) H. unfold step.
  unfold batches_ok in H.
  destruct (pc s) as [ | [ | f rest] | | [ | f rest] | | e] eqn:Hpc.
  - destruct H as (Hlen & Hcalls).
    unfold batches_ok, pull. destruct (source s) as [ | f src']; cbn.
    + split; assumption.
    + rewrite length_app. cbn [List.length].
      destruct (Z.geb_spec (Z.of_nat (List.length (batch s) + 1)) BATCH_SIZE);
        cbn; rewrite ?length_app; cbn [List.length]; lia.
  - destruct H as (Hlen & Hcalls). cbn [List.length] in Hcalls.
    unfold batches_ok, end_of_flush.
    destruct (success (st s) >=? MAX_FILES_PER_RUN); cbn; lia.
  - destruct H as (Hlen & Hcalls). cbn [List.length] in Hcalls.
    unfold batches_ok, process_item.
    destruct (process_file f (world s)) as [[b | e] w']; cbn;
      rewrite ?length_app; cbn [List.length]; lia.
  - destruct H as (Hlen & Hcalls).
    unfold batches_ok, after_loop. cbn.
    destruct (batch s) as [ | f b]; [ | exact Hlen ].
    split; [ reflexivity | intros _; exact Hcalls ].
  - destruct Hh as (_ & _ & _ & Hlb & _).
    unfold batches_ok, end_of_tail. cbn.
    split; [ reflexivity | ].
    rewrite Hlb. discriminate.
  - unfold batches_ok, process_item.
    destruct (process_file f (world s)) as [[b | e] w']; cbn; lia.
  - unfold batches_ok. rewrite Hpc. exact H.
  - unfold batches_ok. rewrite Hpc. exact H.
Qed.

Lemma limit_ok_initial dir_path src w :
  1 <= MAX_FILES_PER_RUN ->
  limit_ok BATCH_SIZE MAX_FILES_PER_RUN (initial World dir_path src w).
Proof. intro HM. unfold limit_ok, initial. cbn. lia. Qed.

Lemma limit_ok_step src s :
  history_ok src s ->
  batches_ok BATCH_SIZE s ->
  limit_ok BATCH_SIZE MAX_FILES_PER_RUN s ->
  limit_ok BATCH_SIZE MAX_FILES_PER_RUN (step_ s).
Proof.
  intros (_ & _ & _ & _ & Hh) Hb H. unfold step.
  unfold limit_ok in H. unfold batches_ok in Hb.
  destruct (pc s) as [ | [ | f rest] | | [ | f rest] | | e] eqn:Hpc.
  - destruct Hb as (Hlen & _).
    unfold limit_ok, pull. destruct (source s) as [ | f src']; cbn.
    + discriminate.
    + rewrite length_app. cbn [List.length].
      destruct (Z.geb_spec (Z.of_nat (List.length (batch s) + 1)) BATCH_SIZE);
        cbn; rewrite ?length_app; cbn [List.length]; lia.
  - cbn [List.length] in H.
    unfold limit_ok, end_of_flush.
    destruct (Z.geb_spec (success (st s)) MAX_FILES_PER_RUN); cbn.
    + intros _. lia.
    + lia.
  - cbn [List.length] in H.
    unfold limit_ok, process_item.
    destruct (process_file f (world s)) as [[b | e] w']; cbn;
      [ | exact I ].
    unfold count. destruct b; cbn; lia.
  - unfold limit_ok, after_loop. cbn.
    destruct (batch s) as [ | f b]; [ exact H | exact I ].
  - destruct Hh as (_ & _ & _ & Hlb & _).
    unfold limit_ok, end_of_tail. cbn.
    rewrite Hlb. discriminate.
  - unfold limit_ok, process_item.
    destruct (process_file f (world s)) as [[b | e] w']; cbn; exact I.
  - unfold limit_ok. rewrite Hpc. exact H.
  - unfold limit_ok. rewrite Hpc. exact H.
Qed.

(** The three invariants hold of every state of a run. *)
Lemma invariants_run src n :
  forall s,
    history_ok src s ->
    batches_ok BATCH_SIZE s ->
    limit_ok BATCH_SIZE MAX_FILES_PER_RUN s ->
    1 <= BATCH_SIZE ->
    history_ok src (run_ n s)
    /\ batches_ok BATCH_SIZE (run_ n s)
    /\ limit_ok BATCH_SIZE MAX_FILES_PER_RUN (run_ n s).
Proof.
  induction n as [ | n IH]; intros s Hh Hb Hl HB;
    [ split; [ | split ]; assumption | ].
  cbn [run]. apply IH.
  - apply history_ok_step. exact Hh.
  - apply (batches_ok_step src); assumption.
  - apply (limit_ok_step src); assumption.
  - exact HB.
Qed.

Lemma invariants_reachable dir_path src w n :
  1 <= BATCH_SIZE -> 1 <= MAX_FILES_PER_RUN ->
  let s := run_ n (initial World dir_path src w) in
  history_ok src s
  /\ batches_ok BATCH_SIZE s
  /\ limit_ok BATCH_SIZE MAX_FILES_PER_RUN s.
Proof.
  intros HB HM. apply invariants_run.
  - apply history_ok_initial.
  - apply batches_ok_initial. exact HB.
  - apply limit_ok_initial. exact HM.
  - exact HB.
Qed.

Lemma batches_reachable dir_path src w n :
  1 <= BATCH_SIZE ->
  let s := run_ n (initial World dir_path src w) in
  history_ok src s /\ batches_ok BATCH_SIZE s.
Proof.
  intro HB. cbn zeta.
  induction n as [ | n IH].
  - split; [ apply history_ok_initial | apply batches_ok_initial; exact HB ].
  - rewrite run_S. destruct IH as [Hh Hb]. split.
    + apply history_ok_step. exact Hh.
    + apply (batches_ok_step src); assumption.
Qed.

Lemma history_reachable dir_path src w n :
  history_ok src (run_ n (initial World dir_path src w)).
Proof. apply history_ok_run. apply history_ok_initial. Qed.

End RunnerFacts.

(* ===================================================================== *)
(** ** The batch runner: claims *)

Section RunnerClaims.

Variable World : Type.
Variable process_file : Path -> World -> outcome * World.
Variable BATCH_SIZE : Z.
Variable MAX_FILES_PER_RUN : Z.

Local Abbreviation step_ := (step World process_file BATCH_SIZE MAX_FILES_PER_RUN).
Local Abbreviation run_ := (run World process_file BATCH_SIZE MAX_FILES_PER_RUN).
Local Abbreviation run_batches_ :=
  (run_batches World process_file BATCH_SIZE MAX_FILES_PER_RUN).

(** C2.  At every point of a run (after any number of steps, so at its end
    as well) at which no exception has left the per-item operation, the sum
    of [success] and [errors] is the number of candidates passed to the
    operation, and that number is at most the number of candidates pulled
    from the generator; [success] counts the calls that returned true and
    [errors] those that returned false. *)
Theorem counters_match_calls dir_path src w n :
  let s := run_ n (initial World dir_path src w) in
  escaped s = false ->
  success (st s) + errors (st s) = Z.of_nat (List.length (calls s))
  /\ Z.of_nat (List.length (calls s)) <= Z.of_nat (List.length (pulled s))
  /\ success (st s) = results true (calls s)
  /\ errors (st s) = results false (calls s).
Proof.
  cbn zeta. intro Hesc.
  destruct (history_reachable World process_file BATCH_SIZE MAX_FILES_PER_RUN
              dir_path src w n) as (_ & Hs & He & _ & H).
  set (s := run_ n (initial World dir_path src w)) in *.
  assert (Hret : forallb is_return (calls s) = true
                 /\ exists rest, map fst (calls s) ++ rest = pulled s).
  { unfold escaped in Hesc.
    destruct (pc s) as [ | rest | | rest | | e]; try discriminate Hesc.
    - destruct H as (Hp & Hret & _). split; [ exact Hret | eauto ].
    - destruct H as (Hp & _ & Hret & _). split; [ exact Hret | eauto ].
    - destruct H as (Hp & Hret & _). split; [ exact Hret | eauto ].
    - destruct H as (Hp & _ & Hret & _). split; [ exact Hret | eauto ].
    - destruct H as (Hp & Hret & _). split; [ exact Hret | ].
      exists []. rewrite app_nil_r. exact Hp. }
  destruct Hret as (Hret & rest & Hp).
  pose proof (results_total _ Hret) as Htot.
  apply (f_equal (@List.length Path)) in Hp.
  rewrite length_app, length_map in Hp.
  repeat split; try assumption; lia.
Qed.

(** C6.  Whenever, in a run, the per-item operation returns false on a
    candidate of the batch being flushed (in the main loop or in the tail),
    [errors] goes up by exactly one, [success] stays as it is, and the run
    goes on with the candidates that follow in the batch, the generator,
    the batch and the way the loop was left being untouched.  A run at the
    end of which no exception has escaped and that the safety limit has not
    stopped has passed every candidate of the source to the operation,
    once and in order, however many calls returned false. *)
Theorem false_result_is_counted_and_run_goes_on dir_path src w :
  (forall n f rest w' (tail : bool),
      let s := run_ n (initial World dir_path src w) in
      let resume := if tail then InTail else InFlush in
      pc s = resume (f :: rest) ->
      process_file f (world s) = (Returns false, w') ->
      errors (st (step_ s)) = errors (st s) + 1
      /\ success (st (step_ s)) = success (st s)
      /\ pc (step_ s) = resume rest
      /\ source (step_ s) = source s
      /\ batch (step_ s) = batch s
      /\ left_by (step_ s) = left_by s)
  /\ (let s := run_batches_ dir_path src w in
      escaped s = false ->
      left_by s <> Some SafetyLimit ->
      map fst (calls s) = src
      /\ errors (st s) = results false (calls s)
      /\ success (st s) = results true (calls s)).
Proof.
  split.
  - intros n f rest w' tail s resume Hpc Hcall.
    unfold step. rewrite Hpc. subst resume.
    destruct tail; unfold process_item; rewrite Hcall; cbn;
      repeat split; reflexivity.
  - cbn zeta. intros Hesc Hlb.
    pose proof (run_batches_finished World process_file BATCH_SIZE
                  MAX_FILES_PER_RUN dir_path src w) as Hfin.
    unfold run_batches in *.
    destruct (history_reachable World process_file BATCH_SIZE
                MAX_FILES_PER_RUN dir_path src w (enough src))
      as (Hsrc & Hs & He & _ & H).
    set (s := run_ (enough src) (initial World dir_path src w)) in *.
    unfold escaped in Hesc. unfold finished in Hfin.
    destruct (pc s) as [ | rest | | rest | | e];
      try discriminate Hesc; try discriminate Hfin.
    destruct H as (Hp & _ & [[_ Hnil] | Hsl]); [ | contradiction ].
    rewrite Hnil, app_nil_r in Hsrc.
    repeat split; congruence.
Qed.

(** C7.  With a batch size of at least one, at every point of a run the
    batch holds at most [BATCH_SIZE] candidates; while a batch is flushed
    in the main loop it holds exactly [BATCH_SIZE] candidates, of which the
    first have just been passed to the operation and the others are still
    to be; while the tail batch is flushed it holds fewer, and the
    generator has been exhausted. *)
Theorem batch_never_exceeds_batch_size dir_path src w n :
  1 <= BATCH_SIZE ->
  let s := run_ n (initial World dir_path src w) in
  Z.of_nat (List.length (batch s)) <= BATCH_SIZE
  /\ (forall rest,
        pc s = InFlush rest ->
        Z.of_nat (List.length (batch s)) = BATCH_SIZE
        /\ exists prev done,
            map fst (calls s) = prev ++ done /\ batch s = done ++ rest)
  /\ (forall rest,
        pc s = InTail rest ->
        Z.of_nat (List.length (batch s)) < BATCH_SIZE
        /\ (exists prev done,
              map fst (calls s) = prev ++ done /\ batch s = done ++ rest)
        /\ source s = []
        /\ left_by s = Some Exhausted).
Proof.
  intro HB. cbn zeta.
  destruct (batches_reachable World process_file BATCH_SIZE MAX_FILES_PER_RUN
              dir_path src w n HB) as ((_ & _ & _ & _ & Hh) & Hb).
  set (s := run_ n (initial World dir_path src w)) in *.
  unfold batches_ok in Hb.
  destruct (pc s) as [ | rest | | rest | | e].
  - split; [ lia | split; intros r Hr; discriminate Hr ].
  - split; [ lia | split; intros r Hr; [ | discriminate Hr ] ].
    injection Hr as <-. destruct Hh as (_ & Hdone & _).
    split; [ lia | exact Hdone ].
  - split; [ lia | split; intros r Hr; discriminate Hr ].
  - split; [ lia | split; intros r Hr; [ discriminate Hr | ] ].
    injection Hr as <-. destruct Hh as (_ & Hdone & _ & Hlb & Hsrc).
    repeat split; assumption.
  - destruct Hb as (Hnil & _). rewrite Hnil. cbn.
    split; [ lia | split; intros r Hr; discriminate Hr ].
  - split; [ lia | split; intros r Hr; discriminate Hr ].
Qed.

(** C3 (amended).  With a batch size and a limit of at least one, in every
    run that the safety limit stops, the count of successes is, from the
    stop on and so at the end, between the limit and the limit plus the
    batch size minus one. *)
Theorem success_within_one_batch_above_limit dir_path src w n :
  1 <= BATCH_SIZE ->
  1 <= MAX_FILES_PER_RUN ->
  let s := run_ n (initial World dir_path src w) in
  left_by s = Some SafetyLimit ->
  MAX_FILES_PER_RUN <= success (st s) <= MAX_FILES_PER_RUN + BATCH_SIZE - 1.
Proof.
  intros HB HM. cbn zeta.
  destruct (invariants_reachable World process_file BATCH_SIZE
              MAX_FILES_PER_RUN dir_path src w n HB HM)
    as ((_ & _ & _ & _ & Hh) & _ & Hl).
  set (s := run_ n (initial World dir_path src w)) in *.
  unfold limit_ok in Hl. intro Hlb.
  destruct (pc s) as [ | rest | | rest | | e].
  - destruct Hh as (_ & _ & Hnone). congruence.
  - destruct Hh as (_ & _ & _ & Hnone). congruence.
  - apply Hl. exact Hlb.
  - destruct Hh as (_ & _ & _ & Hex & _). congruence.
  - apply Hl. exact Hlb.
  - destruct Hh as (cs & f & rest & _ & _ & _ & Hne). contradiction.
Qed.

(** C8 (amended).  Whenever, in a run, a batch has been processed in the
    main loop, the next step sends one progress line to the sink: it
    carries the count of batches flushed in the main loop so far, this
    flush included, which is the number of progress lines sent so far, and
    the counts of successes and errors, which are those of all the calls
    made so far. *)
Theorem progress_after_each_main_loop_flush dir_path src w n :
  let s := run_ n (initial World dir_path src w) in
  pc s = InFlush [] ->
  exists tl,
    stdout (step_ s)
    = stdout s
        ++ OutBatch (batch_count s + 1) (success (st s)) (errors (st s)) :: tl
    /\ batch_lines tl = []
    /\ batch_count (step_ s) = batch_count s + 1
    /\ batch_count (step_ s)
       = Z.of_nat (List.length (batch_lines (stdout (step_ s))))
    /\ st (step_ s) = st s
    /\ success (st s) = results true (calls s)
    /\ errors (st s) = results false (calls s).
Proof.
  cbn zeta. intro Hpc.
  pose proof (history_reachable World process_file BATCH_SIZE MAX_FILES_PER_RUN
                dir_path src w (S n)) as Hnext.
  destruct (history_reachable World process_file BATCH_SIZE MAX_FILES_PER_RUN
              dir_path src w n) as (_ & Hs & He & _ & _).
  rewrite run_S in Hnext. destruct Hnext as (_ & _ & _ & Hbc' & _).
  set (s := run_ n (initial World dir_path src w)) in *.
  revert Hbc'. unfold step. rewrite Hpc. unfold end_of_flush.
  destruct (success (st s) >=? MAX_FILES_PER_RUN); cbn; intro Hbc'.
  - exists [OutLimit MAX_FILES_PER_RUN]. repeat split; assumption.
  - exists []. repeat split; assumption.
Qed.

(** C10.  Whenever, in a run, the per-item operation raises on a candidate
    of the batch being flushed (in the main loop or in the tail), the next
    step leaves the function with that exception and nothing happens after
    it: the caller gets the exception and no statistics, the counters stay
    as they were before the call, and the raising call is the last one
    made.  So, at the end of a run in which a call raised, the result is
    that exception, the call is the last of the run, and the counters count
    the calls before it. *)
Theorem exception_of_per_item_operation_escapes dir_path src w :
  (forall n f rest e w' (tail : bool) m,
      let s := run_ n (initial World dir_path src w) in
      pc s = (if tail then InTail else InFlush) (f :: rest) ->
      process_file f (world s) = (Raises e, w') ->
      let s' := run_ (S m) s in
      pc s' = Escaped e
      /\ result s' = Some (inr e)
      /\ st s' = st s
      /\ calls s' = calls s ++ [(f, Raises e)])
  /\ (forall f e,
        let s := run_batches_ dir_path src w in
        In (f, Raises e) (calls s) ->
        result s = Some (inr e)
        /\ exists cs,
            calls s = cs ++ [(f, Raises e)]
            /\ forallb is_return cs = true
            /\ success (st s) = results true cs
            /\ errors (st s) = results false cs).
Proof.
  split.
  - intros n f rest e w' tail m s Hpc Hcall s'.
    assert (Hstep : pc (step_ s) = Escaped e
                    /\ st (step_ s) = st s
                    /\ calls (step_ s) = calls s ++ [(f, Raises e)]).
    { unfold step. rewrite Hpc.
      destruct tail; unfold process_item; rewrite Hcall; cbn;
        repeat split; reflexivity. }
    destruct Hstep as (Hpc' & Hst & Hcalls).
    assert (Hs' : s' = step_ s).
    { subst s'. cbn [run]. apply run_finished.
      unfold finished. rewrite Hpc'. reflexivity. }
    rewrite Hs'. unfold result. rewrite Hpc'.
    repeat split; assumption.
  - intros f e s Hin. subst s. unfold run_batches in *.
    destruct (history_reachable World process_file BATCH_SIZE
                MAX_FILES_PER_RUN dir_path src w (enough src))
      as (_ & Hs & He & _ & H).
    set (s := run_ (enough src) (initial World dir_path src w)) in *.
    assert (Hno : forall cs, forallb is_return cs = true ->
                             ~ In (f, Raises e) cs).
    { intros cs Hcs Hin'. rewrite forallb_forall in Hcs.
      specialize (Hcs _ Hin'). discriminate Hcs. }
    unfold result.
    destruct (pc s) as [ | rest | | rest | | e'].
    + destruct H as (_ & Hret & _). destruct (Hno _ Hret Hin).
    + destruct H as (_ & _ & Hret & _). destruct (Hno _ Hret Hin).
    + destruct H as (_ & Hret & _). destruct (Hno _ Hret Hin).
    + destruct H as (_ & _ & Hret & _). destruct (Hno _ Hret Hin).
    + destruct H as (_ & Hret & _). destruct (Hno _ Hret Hin).
    + destruct H as (cs & f' & rest & Hcalls & Hret & _).
      rewrite Hcalls in Hin. apply in_app_or in Hin.
      destruct Hin as [Hin | [Heq | []]]; [ destruct (Hno _ Hret Hin) | ].
      injection Heq as -> ->.
      split; [ reflexivity | ].
      exists cs. rewrite Hcalls in Hs, He. rewrite results_snoc in Hs, He.
      unfold returned_with in Hs, He. cbn [snd] in Hs, He.
      rewrite Z.add_0_r in Hs, He.
      split; [ exact Hcalls | split; [ exact Hret | split; assumption ] ].
Qed.

End RunnerClaims.

(** C4.  With a limit of 100 and a batch size of 25, in every run that the
    safety limit stops, the count of successes is, from the stop on and so
    at the end, one of 100, ..., 124; the batch is then empty, and the
    candidates pulled have all been passed to the operation, in whole
    batches of 25.  The limit is not looked at inside a batch: from a state
    in which candidates of the batch being flushed are still to be
    processed, whatever the count of successes, the next step processes the
    next of them, and the loop has not been left. *)
Theorem limit_100_batch_25_granularity
  (World : Type) (process_file : Path -> World -> outcome * World)
  dir_path src w n :
  let s := run World process_file 25 100 n (initial World dir_path src w) in
  (left_by s = Some SafetyLimit ->
   100 <= success (st s) <= 124
   /\ batch s = []
   /\ Z.of_nat (List.length (calls s)) = 25 * batch_count s
   /\ map fst (calls s) = pulled s)
  /\ (forall f rest,
        pc s = InFlush (f :: rest) ->
        let s' := step World process_file 25 100 s in
        left_by s' = None
        /\ calls s' = calls s ++ [(f, fst (process_file f (world s)))]
        /\ (pc s' = InFlush rest \/ exists e, pc s' = Escaped e)).
Proof.
  cbn zeta.
  destruct (invariants_reachable World process_file 25 100
              dir_path src w n ltac:(lia) ltac:(lia))
    as ((_ & _ & _ & _ & Hh) & Hb & Hl).
  set (s := run World process_file 25 100 n (initial World dir_path src w))
    in *.
  unfold limit_ok in Hl. unfold batches_ok in Hb.
  split.
  - intro Hlb.
    destruct (pc s) as [ | rest | | rest | | e].
    + destruct Hh as (_ & _ & Hnone). congruence.
    + destruct Hh as (_ & _ & _ & Hnone). congruence.
    + destruct Hh as (Hp & _ & [[Hex _] | [_ Hnil]]); [ congruence | ].
      rewrite Hnil, app_nil_r in Hp.
      split; [ specialize (Hl Hlb); lia | ].
      split; [ exact Hnil | split; [ apply Hb | exact Hp ] ].
    + destruct Hh as (_ & _ & _ & Hex & _). congruence.
    + destruct Hh as (Hp & _). destruct Hb as (Hnil & Hcalls).
      split; [ specialize (Hl Hlb); lia | ].
      split; [ exact Hnil | split; [ exact (Hcalls Hlb) | exact Hp ] ].
    + destruct Hh as (cs & f & rest & _ & _ & _ & Hne). contradiction.
  - intros f rest Hpc. rewrite Hpc in Hh.
    destruct Hh as (_ & _ & _ & Hnone).
    unfold step. rewrite Hpc. unfold process_item.
    destruct (process_file f (world s)) as [[b | e] w']; cbn.
    + split; [ exact Hnone | split; [ reflexivity | left; reflexivity ] ].
    + split; [ exact Hnone | split; [ reflexivity | right; eauto ] ].
Qed.

(** C9.  When nothing exists at the root path, [main] prints the banner and
    the error that names the path, and returns:
    [process_directory_optimized] is not entered, so that no candidate is
    pulled and the per-item operation is not called. *)
Theorem main_refuses_missing_root
  (World : Type) (process_file : Path -> World -> outcome * World)
  (BATCH_SIZE MAX_FILES_PER_RUN : Z) (ARCHIVE_BASE : string) (w : World) :
  let r := main World process_file BATCH_SIZE MAX_FILES_PER_RUN
             ARCHIVE_BASE None w in
  fst r = [OutBanner BATCH_SIZE MAX_FILES_PER_RUN; OutPathMissing ARCHIVE_BASE]
  /\ snd r = None
  /\ pulled_in_main r = []
  /\ calls_in_main r = [].
Proof. cbn. repeat split. Qed.

(** *** The claims at concrete runs *)

Lemma counters_match_calls_witness :
  let s := run unit always_true 25 500 40 (initial unit [] (candidates 30) tt)
  in
  escaped s = false
  /\ success (st s) + errors (st s) = Z.of_nat (List.length (calls s))
  /\ Z.of_nat (List.length (calls s)) <= Z.of_nat (List.length (pulled s)).
Proof.
  cbn zeta. split; [ reflexivity | ].
  pose proof (counters_match_calls unit always_true 25 500
                [] (candidates 30) tt 40 eq_refl) as (H1 & H2 & _).
  split; [ exact H1 | exact H2 ].
Defined.

Lemma false_result_is_counted_and_run_goes_on_witness :
  let pf := by_name ["ii"] [] in
  let s := run unit pf 2 500 3 (initial unit [] (candidates 3) tt) in
  let s' := step unit pf 2 500 s in
  let final := run_batches unit pf 2 500 [] (candidates 3) tt in
  (pc s = InFlush [["ii"]] /\ pf ["ii"] (world s) = (Returns false, tt))
  /\ (errors (st s') = errors (st s) + 1
      /\ success (st s') = success (st s)
      /\ pc s' = InFlush [])
  /\ (escaped final = false /\ left_by final <> Some SafetyLimit)
  /\ map fst (calls final) = candidates 3.
Proof.
  cbn zeta.
  pose proof (false_result_is_counted_and_run_goes_on
                unit (by_name ["ii"] []) 2 500 [] (candidates 3) tt)
    as (Hstep & Hrun).
  split; [ split; reflexivity | ].
  split.
  - destruct (Hstep 3%nat ["ii"] [] tt false eq_refl eq_refl)
      as (He & Hs & Hpc & _).
    split; [ exact He | split; [ exact Hs | exact Hpc ] ].
  - assert (Hlb : left_by (run_batches unit (by_name ["ii"] []) 2 500
                             [] (candidates 3) tt) <> Some SafetyLimit)
      by (vm_compute; discriminate).
    split; [ split; [ reflexivity | exact Hlb ] | ].
    exact (proj1 (Hrun eq_refl Hlb)).
Defined.

Lemma batch_never_exceeds_batch_size_witness :
  let at_step n := run unit always_true 2 500 n
                     (initial unit [] (candidates 3) tt) in
  1 <= 2
  /\ (pc (at_step 3%nat) = InFlush [["ii"]]
      /\ Z.of_nat (List.length (batch (at_step 3%nat))) = 2)
  /\ (pc (at_step 8%nat) = InTail [["iii"]]
      /\ Z.of_nat (List.length (batch (at_step 8%nat))) < 2
      /\ source (at_step 8%nat) = []).
Proof.
  cbn zeta. split; [ lia | split ].
  - split; [ reflexivity | ].
    destruct (batch_never_exceeds_batch_size unit always_true 2 500
                [] (candidates 3) tt 3 ltac:(lia)) as (_ & Hflush & _).
    exact (proj1 (Hflush [["ii"]] eq_refl)).
  - split; [ reflexivity | ].
    destruct (batch_never_exceeds_batch_size unit always_true 2 500
                [] (candidates 3) tt 8 ltac:(lia)) as (_ & _ & Htail).
    destruct (Htail [["iii"]] eq_refl) as (Hlen & _ & Hsrc & _).
    split; [ exact Hlen | exact Hsrc ].
Defined.

(** C3, as stated, fails: with a batch size of 2 and a limit of 1, the run
    over two candidates on which the operation succeeds is stopped by the
    safety limit with 2 successes, which is not between
    [1 - 2 + 1] and [1]. *)
Lemma success_above_limit_when_stopped :
  let s := run_batches unit always_true 2 1 [] (candidates 2) tt in
  left_by s = Some SafetyLimit
  /\ result s = Some (inl {| success := 2; errors := 0 |})
  /\ ~ (1 - 2 + 1 <= success (st s) <= 1).
Proof.
  cbn zeta. split; [ reflexivity | split; [ reflexivity | ] ].
  vm_compute. intros [_ H]. apply H. reflexivity.
Qed.

Lemma success_within_one_batch_above_limit_witness :
  let s := run unit always_true 2 1 9 (initial unit [] (candidates 2) tt) in
  (1 <= 2 /\ 1 <= 1 /\ left_by s = Some SafetyLimit)
  /\ 1 <= success (st s) <= 1 + 2 - 1.
Proof.
  cbn zeta. split; [ split; [ lia | split; [ lia | reflexivity ] ] | ].
  exact (success_within_one_batch_above_limit unit always_true 2 1
           [] (candidates 2) tt 9 ltac:(lia) ltac:(lia) eq_refl).
Defined.

Lemma limit_100_batch_25_granularity_witness :
  let pf := by_name ["i"] [] in
  let at_step n := run unit pf 25 100 n (initial unit [] (candidates 130) tt)
  in
  (left_by (at_step 400%nat) = Some SafetyLimit
   /\ 100 <= success (st (at_step 400%nat)) <= 124
   /\ Z.of_nat (List.length (calls (at_step 400%nat)))
      = 25 * batch_count (at_step 400%nat))
  /\ (success (st (at_step 230%nat)) = 100
      /\ exists f rest,
          pc (at_step 230%nat) = InFlush (f :: rest)
          /\ left_by (at_step 231%nat) = None).
Proof.
  cbn zeta. split.
  - assert (Hlb : left_by (run unit (by_name ["i"] []) 25 100 400
                             (initial unit [] (candidates 130) tt))
                  = Some SafetyLimit) by (vm_compute; reflexivity).
    split; [ exact Hlb | ].
    pose proof (proj1 (limit_100_batch_25_granularity unit (by_name ["i"] [])
                         [] (candidates 130) tt 400) Hlb)
      as (H1 & _ & H3 & _).
    split; [ exact H1 | exact H3 ].
  - split; [ vm_compute; reflexivity | ].
    pose proof (proj2 (limit_100_batch_25_granularity unit (by_name ["i"] [])
                         [] (candidates 130) tt 230)) as Hmid.
    remember (run unit (by_name ["i"] []) 25 100 230
                (initial unit [] (candidates 130) tt)) as s eqn:Hs.
    assert (Hpc : exists f rest, pc s = InFlush (f :: rest)).
    { rewrite Hs. vm_compute. eexists. eexists. reflexivity. }
    destruct Hpc as (f & rest & Hpc).
    exists f, rest. split; [ exact Hpc | ].
    destruct (Hmid f rest Hpc) as (Hnone & _ & Hnext).
    change (run unit (by_name ["i"] []) 25 100 231
              (initial unit [] (candidates 130) tt))
      with (run unit (by_name ["i"] []) 25 100 (230 + 1)
              (initial unit [] (candidates 130) tt)).
    rewrite run_add, <- Hs. cbn [run]. exact Hnone.
Defined.

(** The run of the witness above ends with 124 successes: the hundredth
    success comes inside the fifth batch, which is processed to its end. *)
Example limit_100_batch_25_reaches_124 :
  result (run_batches unit (by_name ["i"] []) 25 100 [] (candidates 130) tt)
  = Some (inl {| success := 124; errors := 1 |}).
Proof. vm_compute. reflexivity. Qed.

(** C8, as stated, fails: with the script's settings, over 30 candidates on
    which the operation succeeds, the tail batch of 5 is flushed (30 calls,
    30 successes returned) and the only progress line sent is the one that
    follows the batch of 25. *)
Lemma tail_flush_sends_no_progress :
  let s := run_batches unit always_true 25 500 [] (candidates 30) tt in
  result s = Some (inl {| success := 30; errors := 0 |})
  /\ List.length (calls s) = 30%nat
  /\ stdout s = [OutProcessing []; OutBatch 1 25 0]
  /\ ~ In (OutBatch 2 30 0) (stdout s).
Proof.
  cbn zeta.
  split; [ vm_compute; reflexivity | ].
  split; [ vm_compute; reflexivity | ].
  split; [ vm_compute; reflexivity | ].
  vm_compute. intros [H | [H | []]]; discriminate H.
Qed.

Lemma progress_after_each_main_loop_flush_witness :
  let s := run unit always_true 2 500 4 (initial unit [] (candidates 3) tt) in
  let s' := step unit always_true 2 500 s in
  pc s = InFlush []
  /\ exists tl, stdout s' = stdout s ++ OutBatch 1 2 0 :: tl.
Proof.
  cbn zeta. split; [ reflexivity | ].
  destruct (progress_after_each_main_loop_flush unit always_true 2 500
              [] (candidates 3) tt 4 eq_refl) as (tl & H & _).
  exists tl. exact H.
Defined.

Lemma exception_of_per_item_operation_escapes_witness :
  let pf := by_name [] ["ii"] in
  let s := run unit pf 2 500 3 (initial unit [] (candidates 3) tt) in
  let final := run_batches unit pf 2 500 [] (candidates 3) tt in
  (pc s = InFlush [["ii"]]
   /\ pf ["ii"] (world s) = (Raises (OtherError "broken"), tt))
  /\ (result (run unit pf 2 500 7 s) = Some (inr (OtherError "broken"))
      /\ st (run unit pf 2 500 7 s) = st s)
  /\ In (["ii"], Raises (OtherError "broken")) (calls final)
  /\ result final = Some (inr (OtherError "broken")).
Proof.
  cbn zeta.
  pose proof (exception_of_per_item_operation_escapes
                unit (by_name [] ["ii"]) 2 500 [] (candidates 3) tt)
    as (Hstep & Hrun).
  split; [ split; reflexivity | split ].
  - destruct (Hstep 3%nat ["ii"] [] (OtherError "broken") tt false 6%nat
                eq_refl eq_refl) as (_ & Hres & Hst & _).
    split; [ exact Hres | exact Hst ].
  - assert (Hin : In (["ii"], Raises (OtherError "broken"))
                    (calls (run_batches unit (by_name [] ["ii"]) 2 500
                              [] (candidates 3) tt)))
      by (vm_compute; right; left; reflexivity).
    split; [ exact Hin | exact (proj1 (Hrun _ _ Hin)) ].
Defined.

(** *** The scenarios of the specification *)

(** Thirty candidates, batches of 25, an operation that succeeds: one
    flush in the main loop, a tail of five, 30 successes. *)
Example scenario_thirty_candidates :
  let s := run_batches unit always_true 25 500 [] (candidates 30) tt in
  result s = Some (inl {| success := 30; errors := 0 |})
  /\ batch_count s = 1.
Proof. vm_compute. split; reflexivity. Qed.

(** A root that holds only subdirectories, visited with [max_depth = 0]:
    nothing is yielded and no batch is flushed. *)
Example scenario_depth_zero :
  let d := Dir [("x", Dir [("a.pdf", File)] None);
                ("y", Dir [("b.pdf", File)] None)] None in
  yielded [] d 0 = []
  /\ calls (run_batches unit always_true 25 500 [] (yielded [] d 0) tt) = [].
Proof. vm_compute. split; reflexivity. Qed.

(** The script as it stands, on the readable archive and on a console that
    takes every line: three files are processed in the tail batch, no
    progress line is printed, and the summary reports them. *)
Example script_on_readable_example :
  let r := Script.main (list string) Script.print_line
             (Some readable_example) [] in
  fst r = [OutBanner 25 500;
           OutProcessing ["/path/to/your/archive"];
           OutComplete 3 0]
  /\ option_map world (snd r)
     = Some ["   Processing: a.pdf";
             "   Processing: c.TXT";
             "   Processing: e.xls"].
Proof. vm_compute. split; reflexivity. Qed.

(* ===================================================================== *)
(** ** Further properties of the traversal *)

(** *** The tests on names *)

Lemma lower_ascii_idempotent c :
  Name.lower_ascii (Name.lower_ascii c) = Name.lower_ascii c.
Proof. destruct c as [[] [] [] [] [] [] [] []]; reflexivity. Qed.

Lemma lower_ascii_dot c :
  Ascii.eqb (Name.lower_ascii c) "."%char = Ascii.eqb c "."%char.
Proof. destruct c as [[] [] [] [] [] [] [] []]; reflexivity. Qed.

Lemma lower_idempotent s : Name.lower (Name.lower s) = Name.lower s.
Proof.
  induction s as [ | c s IH]; [ reflexivity | ].
  cbn. rewrite lower_ascii_idempotent, IH. reflexivity.
Qed.

Lemma lower_length s : String.length (Name.lower s) = String.length s.
Proof.
  induction s as [ | c s IH]; [ reflexivity | ]. cbn. rewrite IH. reflexivity.
Qed.

Lemma lower_rfind_dot s :
  Name.rfind "."%char (Name.lower s) = Name.rfind "."%char s.
Proof.
  induction s as [ | c s IH]; [ reflexivity | ].
  cbn. rewrite IH, lower_ascii_dot. reflexivity.
Qed.





Lemma in_extensions_In x :
  Name.in_extensions x = true <-> In x Name.FILE_EXTENSIONS.
Proof.
  unfold Name.in_extensions. rewrite existsb_exists. split.
  - intros (y & Hy & Heq). apply String.eqb_eq in Heq. subst y. exact Hy.
  - intro H. exists x. split; [ exact H | apply String.eqb_refl ].
Qed.

Lemma rfind_lt c s i : Name.rfind c s = Some i -> (i < String.length s)%nat.
Proof.
  revert i. induction s as [ | a s IH]; intros i H; [ discriminate H | ].
  cbn in H. destruct (Name.rfind c s) as [j | ].
  - injection H as <-. specialize (IH j eq_refl). cbn. lia.
  - destruct (Ascii.eqb a c); [ | discriminate H ].
    injection H as <-. cbn. lia.
Qed.

Lemma rfind_zero c s :
  Name.rfind c s = Some 0%nat ->
  exists s', s = String c s' /\ Name.rfind c s' = None.
Proof.
  destruct s as [ | a s]; [ discriminate | ].
  cbn. destruct (Name.rfind c s) as [j | ] eqn:Hr; [ discriminate | ].
  destruct (Ascii.eqb_spec a c) as [-> | ]; [ | discriminate ].
  intros _. exists s. split; [ reflexivity | exact Hr ].
Qed.

Lemma rfind_append c stem s' :
  Name.rfind c s' = None ->
  Name.rfind c (stem ++ String c s')%string = Some (String.length stem).
Proof.
  intro H. induction stem as [ | a stem IH]; cbn.
  - rewrite H, Ascii.eqb_refl. reflexivity.
  - rewrite IH. reflexivity.
Qed.

Lemma substring_append_right stem ext :
  substring (String.length stem) (String.length ext) (stem ++ ext)%string = ext.
Proof.
  induction stem as [ | a stem IH]; cbn; [ | exact IH ].
  induction ext as [ | b ext IHe]; [ reflexivity | ].
  cbn. rewrite IHe. reflexivity.
Qed.

Lemma substring_split s :
  forall i, (i <= String.length s)%nat ->
    s = (substring 0 i s ++ substring i (String.length s - i) s)%string.
Proof.
  induction s as [ | a s IH]; intros i Hi.
  - cbn in Hi. replace i with 0%nat by lia. reflexivity.
  - destruct i as [ | i].
    + pose proof (substring_append_right "" (String a s)) as H.
      cbn [String.length append] in H.
      rewrite Nat.sub_0_r.
      change (substring 0 0 (String a s)) with "".
      cbn [append]. symmetry. exact H.
    + cbn in Hi. cbn. f_equal. apply IH. lia.
Qed.

Lemma substring_prefix_length s :
  forall i, (i <= String.length s)%nat ->
    String.length (substring 0 i s) = i.
Proof.
  induction s as [ | a s IH]; intros i Hi.
  - cbn in Hi. replace i with 0%nat by lia. reflexivity.
  - destruct i as [ | i]; [ reflexivity | ].
    cbn in Hi. cbn. rewrite IH by lia. reflexivity.
Qed.

Lemma append_length s t :
  String.length (s ++ t)%string = (String.length s + String.length t)%nat.
Proof.
  induction s as [ | a s IH]; [ reflexivity | ]. cbn. rewrite IH. reflexivity.
Qed.

(** An allowed extension starts with its only dot and has at least three
    characters after it. *)
Lemma allowed_extension_shape ext :
  In (Name.lower ext) Name.FILE_EXTENSIONS ->
  (exists e', ext = String "."%char e' /\ Name.rfind "."%char e' = None)
  /\ (4 <= String.length ext)%nat.
Proof.
  intro H. split.
  - apply rfind_zero. rewrite <- lower_rfind_dot.
    cbn in H. repeat (destruct H as [<- | H]; [ reflexivity | ]).
    destruct H.
  - rewrite <- lower_length.
    cbn in H. repeat (destruct H as [<- | H]; [ cbn; lia | ]).
    destruct H.
Qed.

(** X2.  The names let through by the test of the extension are those made
    of a stem that is not empty followed by an extension that is, lower
    cased, in [FILE_EXTENSIONS]: the whole of what follows the last dot
    counts, and a name that is nothing but an extension is kept out. *)
Theorem allowed_extension_iff (n : string) :
  allowed_extension n = true
  <-> exists stem ext,
        n = (stem ++ ext)%string
        /\ stem <> ""
        /\ In (Name.lower ext) Name.FILE_EXTENSIONS.
Proof.
  unfold allowed_extension. rewrite in_extensions_In. split.
  - intro H. unfold Name.suffix in H.
    destruct (Name.rfind "."%char n) as [i | ] eqn:Hr;
      [ | cbn in H; repeat (destruct H as [H | H]; [ discriminate H | ]);
          destruct H ].
    destruct ((0 <? i) && (i <? String.length n - 1))%nat eqn:Hi;
      [ | cbn in H; repeat (destruct H as [H | H]; [ discriminate H | ]);
          destruct H ].
    apply andb_prop in Hi. destruct Hi as [Hpos _].
    apply Nat.ltb_lt in Hpos. apply rfind_lt in Hr.
    exists (substring 0 i n), (substring i (String.length n - i) n).
    split; [ apply substring_split; lia | split; [ | exact H ] ].
    intro Hempty.
    assert (Hlen := substring_prefix_length n i ltac:(lia)).
    rewrite Hempty in Hlen. cbn in Hlen. lia.
  - intros (stem & ext & -> & Hstem & Hext).
    destruct (allowed_extension_shape ext Hext) as ((e' & -> & Hnone) & Hlen).
    unfold Name.suffix.
    rewrite (rfind_append _ stem e' Hnone), append_length.
    assert (Hs : (0 < String.length stem)%nat)
      by (destruct stem; [ contradiction | cbn; lia ]).
    replace ((0 <? String.length stem)
             && (String.length stem
                 <? String.length stem + String.length (String "."%char e') - 1))%nat
      with true.
    + replace (String.length stem + String.length (String "."%char e')
               - String.length stem)%nat
        with (String.length (String "."%char e')) by lia.
      rewrite substring_append_right. exact Hext.
    + symmetry. apply andb_true_intro. split.
      * apply Nat.ltb_lt. exact Hs.
      * apply Nat.ltb_lt. lia.
Qed.

(** *** The pattern of a formatted name *)

(** [a{n}] takes [n] characters, each of which matches [a]. *)
Lemma match_times_Some (a : Name.atom) (n : nat) (s r : Unicode.text) :
  Name.match_times a n s = Some r
  <-> exists x,
        s = x ++ r /\ List.length x = n
        /\ forallb (Name.atom_matches a) x = true.
Proof.
  revert s. induction n as [ | n IH]; intro s; cbn [Name.match_times].
  - split.
    + intro H. injection H as <-. exists []. repeat split.
    + intros (x & -> & Hx & _). destruct x; [ reflexivity | discriminate Hx ].
  - destruct s as [ | c s'].
    + split; [ discriminate | ].
      intros (x & Hs & Hx & _).
      destruct x; [ discriminate Hx | discriminate Hs ].
    + destruct (Name.atom_matches a c) eqn:Hc.
      * rewrite IH. split.
        -- intros (x & -> & Hx & Hall). exists (c :: x).
           cbn [List.length forallb app]. rewrite Hc, Hall, Hx.
           repeat split.
        -- intros (x & Hs & Hx & Hall).
           destruct x as [ | c' x]; [ discriminate Hx | ].
           injection Hs as <- ->. injection Hx as Hx.
           cbn [forallb] in Hall. apply andb_prop in Hall.
           exists x. split; [ reflexivity | ]. split; [ exact Hx | ].
           exact (proj2 Hall).
      * split; [ discriminate | ].
        intros (x & Hs & Hx & Hall).
        destruct x as [ | c' x]; [ discriminate Hx | ].
        injection Hs as <- ->. cbn [forallb] in Hall.
        rewrite Hc in Hall. discriminate Hall.
Qed.

(** A literal character takes that character. *)
Lemma match_literal_Some (c : ascii) (s r : Unicode.text) :
  Name.match_piece (Name.Once (Name.Lit c)) s = Some r
  <-> s = Unicode.byte c :: r.
Proof.
  cbn [Name.match_piece]. rewrite match_times_Some. split.
  - intros (x & -> & Hx & Hall).
    destruct x as [ | d [ | ]]; try discriminate Hx.
    cbn [forallb Name.atom_matches] in Hall.
    rewrite andb_true_r in Hall. apply N.eqb_eq in Hall. subst d.
    reflexivity.
  - intros ->. exists [Unicode.byte c]. split; [ reflexivity | ].
    split; [ reflexivity | ].
    cbn [forallb Name.atom_matches]. rewrite N.eqb_refl. reflexivity.
Qed.

(** The shape of the text of a formatted name. *)
Lemma formatted_shape (n : string) :
  formatted n = true
  <-> exists y m d rest,
        Unicode.decode n
        = y ++ Unicode.decode "-" ++ m ++ Unicode.decode "-"
            ++ d ++ Unicode.decode "_" ++ rest
        /\ List.length y = 4%nat /\ all_digits y = true
        /\ List.length m = 2%nat /\ all_digits m = true
        /\ List.length d = 2%nat /\ all_digits d = true.
Proof.
  unfold formatted, Name.re_match, Name.FORMATTED_PATTERN, all_digits.
  change (Unicode.decode "-") with [Unicode.byte "-"].
  change (Unicode.decode "_") with [Unicode.byte "_"].
  generalize (Unicode.decode n) as t. intro t. split.
  - cbn [Name.match_pieces]. intro H.
    destruct (Name.match_piece (Name.Times Name.Digit 4) t)
      as [t1 | ] eqn:H1; [ | discriminate H ].
    destruct (Name.match_piece (Name.Once (Name.Lit "-")) t1)
      as [t2 | ] eqn:H2; [ | discriminate H ].
    destruct (Name.match_piece (Name.Times Name.Digit 2) t2)
      as [t3 | ] eqn:H3; [ | discriminate H ].
    destruct (Name.match_piece (Name.Once (Name.Lit "-")) t3)
      as [t4 | ] eqn:H4; [ | discriminate H ].
    destruct (Name.match_piece (Name.Times Name.Digit 2) t4)
      as [t5 | ] eqn:H5; [ | discriminate H ].
    destruct (Name.match_piece (Name.Once (Name.Lit "_")) t5)
      as [rest | ] eqn:H6; [ | discriminate H ].
    apply match_literal_Some in H2, H4, H6.
    cbn [Name.match_piece] in H1, H3, H5.
    apply match_times_Some in H1, H3, H5.
    destruct H1 as (y & -> & Ly & Dy).
    destruct H3 as (m & -> & Lm & Dm).
    destruct H5 as (d & -> & Ld & Dd).
    subst t1 t3 t5.
    exists y, m, d, rest. cbn [app].
    split; [ reflexivity | ].
    split; [ exact Ly | ]. split; [ exact Dy | ].
    split; [ exact Lm | ]. split; [ exact Dm | ].
    split; [ exact Ld | exact Dd ].
  - intros (y & m & d & rest & -> & Ly & Dy & Lm & Dm & Ld & Dd).
    cbn [Name.match_pieces app].
    assert (H1 : Name.match_piece (Name.Times Name.Digit 4)
                   (y ++ Unicode.byte "-" :: m ++ Unicode.byte "-"
                      :: d ++ Unicode.byte "_" :: rest)
                 = Some (Unicode.byte "-" :: m ++ Unicode.byte "-"
                           :: d ++ Unicode.byte "_" :: rest))
      by (apply match_times_Some; exists y; repeat split; assumption).
    rewrite H1.
    rewrite (proj2 (match_literal_Some _ _ _) eq_refl).
    assert (H3 : Name.match_piece (Name.Times Name.Digit 2)
                   (m ++ Unicode.byte "-" :: d ++ Unicode.byte "_" :: rest)
                 = Some (Unicode.byte "-" :: d ++ Unicode.byte "_" :: rest))
      by (apply match_times_Some; exists m; repeat split; assumption).
    rewrite H3.
    rewrite (proj2 (match_literal_Some _ _ _) eq_refl).
    assert (H5 : Name.match_piece (Name.Times Name.Digit 2)
                   (d ++ Unicode.byte "_" :: rest)
                 = Some (Unicode.byte "_" :: rest))
      by (apply match_times_Some; exists d; repeat split; assumption).
    rewrite H5.
    rewrite (proj2 (match_literal_Some _ _ _) eq_refl).
    reflexivity.
Qed.

(** An ASCII byte is its own code point. *)
Lemma decode_ascii (a : ascii) (s : string) :
  (Unicode.byte a <? 128)%N = true ->
  Unicode.decode (String a s) = Unicode.byte a :: Unicode.decode s.
Proof.
  intro H. unfold Unicode.decode. cbn [Unicode.decode_from].
  unfold Unicode.sequence_at. rewrite H. reflexivity.
Qed.

Lemma between_48_57 (c : N) :
  Unicode.between 48 57 c = true ->
  (c <? 128)%N = true /\ Name.is_digit c = true.
Proof.
  intro H. split.
  - unfold Unicode.between in H. apply andb_prop in H.
    destruct H as [_ H]. apply N.leb_le in H. apply N.ltb_lt. lia.
  - unfold Name.is_digit, Unicode.is_decimal, Unicode.DECIMAL_ZEROS.
    cbn [existsb]. change (48 + 9)%N with 57%N. rewrite H. reflexivity.
Qed.

(** Digits [0]..[9] in front of a name are decimal digits in front of
    its text. *)
Lemma decode_ascii_digits (y s : string) :
  ascii_digits y = true ->
  exists t,
    Unicode.decode (y ++ s)%string = t ++ Unicode.decode s
    /\ List.length t = String.length y /\ all_digits t = true.
Proof.
  induction y as [ | c y IH]; intro H.
  - exists []. repeat split.
  - cbn [ascii_digits] in H. apply andb_prop in H. destruct H as [Hc Hy].
    destruct (between_48_57 _ Hc) as [Hlt Hd].
    destruct (IH Hy) as (t & Ht & Hl & Ha).
    exists (Unicode.byte c :: t).
    cbn [append]. rewrite (decode_ascii _ _ Hlt), Ht.
    cbn [app List.length String.length all_digits forallb].
    unfold all_digits in Ha. rewrite Hd, Ha, Hl. repeat split.
Qed.

(** X3.  A name is taken as already formatted exactly when its text
    starts with four digits, a hyphen, two digits, a hyphen, two digits
    and an underscore, a digit being any decimal digit of Unicode; what
    follows is free, and the digits need not make a date.  So a name in
    front of which such a stamp is written in the digits [0]..[9] is
    formatted, whatever the name was. *)
Theorem formatted_iff :
  (forall n,
     formatted n = true
     <-> exists y m d rest,
           Unicode.decode n
           = y ++ Unicode.decode "-" ++ m ++ Unicode.decode "-"
               ++ d ++ Unicode.decode "_" ++ rest
           /\ List.length y = 4%nat /\ all_digits y = true
           /\ List.length m = 2%nat /\ all_digits m = true
           /\ List.length d = 2%nat /\ all_digits d = true)
  /\ (forall y m d n,
        String.length y = 4%nat -> ascii_digits y = true ->
        String.length m = 2%nat -> ascii_digits m = true ->
        String.length d = 2%nat -> ascii_digits d = true ->
        formatted (y ++ "-" ++ m ++ "-" ++ d ++ "_" ++ n)%string = true).
Proof.
  split; [ exact formatted_shape | ].
  intros y m d n Ly Dy Lm Dm Ld Dd.
  apply formatted_shape.
  destruct (decode_ascii_digits y ("-" ++ m ++ "-" ++ d ++ "_" ++ n)%string Dy)
    as (ty & Hy & Lty & Aty).
  destruct (decode_ascii_digits m ("-" ++ d ++ "_" ++ n)%string Dm)
    as (tm & Hm & Ltm & Atm).
  destruct (decode_ascii_digits d ("_" ++ n)%string Dd)
    as (td & Hd & Ltd & Atd).
  exists ty, tm, td, (Unicode.decode n).
  split.
  - rewrite Hy.
    change ("-" ++ m ++ "-" ++ d ++ "_" ++ n)%string
      with (String "-" (m ++ "-" ++ d ++ "_" ++ n))%string.
    rewrite (decode_ascii "-" _ eq_refl), Hm.
    change ("-" ++ d ++ "_" ++ n)%string
      with (String "-" (d ++ "_" ++ n))%string.
    rewrite (decode_ascii "-" _ eq_refl), Hd.
    change ("_" ++ n)%string with (String "_" n).
    rewrite (decode_ascii "_" _ eq_refl).
    reflexivity.
  - rewrite Lty, Ltm, Ltd.
    split; [ exact Ly | ]. split; [ exact Aty | ].
    split; [ exact Lm | ]. split; [ exact Atm | ].
    split; [ exact Ld | exact Atd ].
Qed.

Lemma formatted_iff_witness :
  formatted "2024-01-02_b.pdf" = true
  /\ formatted "２０２４-０１-０２_b.pdf" = true.
Proof.
  split.
  - exact (proj2 formatted_iff "2024" "01" "02" "b.pdf"
             eq_refl eq_refl eq_refl eq_refl eq_refl eq_refl).
  - apply (proj1 formatted_iff).
    exists [65298; 65296; 65298; 65300]%N, [65296; 65297]%N,
      [65296; 65298]%N, (Unicode.decode "b.pdf").
    repeat split.
Defined.

(** *** Order and depth *)


Lemma filter_flat_map {A B : Type} (p : B -> bool) (f : A -> list B) l :
  filter p (flat_map f l) = flat_map (fun x => filter p (f x)) l.
Proof.
  induction l as [ | x l IH]; [ reflexivity | ].
  cbn. rewrite filter_app, IH. reflexivity.
Qed.

Lemma flat_map_ext_In {A B : Type} (f g : A -> list B) l :
  (forall x, In x l -> f x = g x) -> flat_map f l = flat_map g l.
Proof.
  induction l as [ | x l IH]; intro H; [ reflexivity | ].
  cbn. rewrite (H x (or_introl eq_refl)), IH; [ reflexivity | ].
  intros y Hy. apply H. right. exact Hy.
Qed.

Lemma filter_none {A : Type} (p : A -> bool) l :
  (forall x, In x l -> p x = false) -> filter p l = [].
Proof.
  induction l as [ | x l IH]; intro H; [ reflexivity | ].
  cbn. rewrite (H x (or_introl eq_refl)). apply IH.
  intros y Hy. apply H. right. exact Hy.
Qed.

Lemma yielded_depth_filter d :
  forall dir_path m m' current_depth,
    m <= m' ->
    fst (find_unformatted_files_generator dir_path d m current_depth)
    = filter (fun p => depth_below dir_path p + current_depth <=? m)
        (fst (find_unformatted_files_generator dir_path d m' current_depth)).
Proof.
  induction d as [ | | es err IH] using node_ind';
    intros dir_path m m' current_depth Hm.
  - rewrite !yielded_not_Dir by reflexivity. reflexivity.
  - rewrite !yielded_not_Dir by reflexivity. reflexivity.
  - destruct (Z_lt_le_dec m current_depth) as [Hdeep | Hle].
    + rewrite yielded_too_deep by exact Hdeep.
      symmetry. apply filter_none. intros p Hp.
      apply yielded_iff in Hp.
      destruct Hp as (rel & -> & Hat & _).
      apply at_path_File_inv in Hat.
      destruct Hat as [[Hd _] | (n & c & rel' & -> & _ & _)];
        [ discriminate Hd | ].
      apply Z.leb_gt. unfold depth_below.
      rewrite length_app. cbn [List.length]. lia.
    + rewrite !yielded_Dir by lia. rewrite filter_flat_map.
      apply flat_map_ext_In. intros [n c] Hin.
      cbn [yields_of_entry].
      destruct (hidden n); [ reflexivity | ].
      destruct (is_dir c).
      * pose proof (proj1 (Forall_forall _ _) IH (n, c)
                      (delivered_listing _ _ Hin) (joinpath dir_path n) m m'
                      (current_depth + 1) Hm) as IHc.
        cbn [snd] in IHc. rewrite IHc.
        apply filter_ext. intro p. unfold depth_below, joinpath.
        rewrite length_app. cbn [List.length snd].
        f_equal. lia.
      * destruct (is_file c && allowed_extension n && negb (formatted n));
          [ | reflexivity ].
        cbn [filter]. unfold depth_below, joinpath.
        rewrite length_app. cbn [List.length].
        destruct (Z.leb_spec
                    (Z.of_nat (List.length dir_path + 1)
                     - Z.of_nat (List.length dir_path) - 1 + current_depth) m);
          [ reflexivity | lia ].
Qed.

(** X5.  Lowering the depth bound takes away the candidates that lie
    deeper and nothing else: what is yielded with the bound [m] is, in the
    same order, what is yielded with a bound [m' >= m] and lies at depth
    at most [m]. *)
Theorem yielded_with_lower_depth
  (root : Path) (t : node) (m m' : Z) :
  m <= m' ->
  yielded root t m
  = filter (fun p => depth_below root p <=? m) (yielded root t m').
Proof.
  intro Hm. unfold yielded.
  rewrite (yielded_depth_filter t root m m' 0 Hm).
  apply filter_ext. intro p. rewrite Z.add_0_r. reflexivity.
Qed.

Lemma yielded_with_lower_depth_witness :
  0 <= 3
  /\ yielded [] readable_example 0 = [["a.pdf"]]
  /\ yielded [] readable_example 0
     = filter (fun p => depth_below [] p <=? 0) (yielded [] readable_example 3).
Proof.
  split; [ lia | split; [ reflexivity | ] ].
  apply yielded_with_lower_depth. lia.
Defined.

(* ===================================================================== *)
(** ** Further properties of the batch runner *)

Section RunnerExtras.

Variable World : Type.
Variable process_file : Path -> World -> outcome * World.
Variable BATCH_SIZE : Z.
Variable MAX_FILES_PER_RUN : Z.

Local Abbreviation step_ := (step World process_file BATCH_SIZE MAX_FILES_PER_RUN).
Local Abbreviation run_ := (run World process_file BATCH_SIZE MAX_FILES_PER_RUN).
Local Abbreviation run_batches_ :=
  (run_batches World process_file BATCH_SIZE MAX_FILES_PER_RUN).
Local Abbreviation history_reachable_ :=
  (history_reachable World process_file BATCH_SIZE MAX_FILES_PER_RUN).
Local Abbreviation run_S_ :=
  (run_S World process_file BATCH_SIZE MAX_FILES_PER_RUN).

(** X6.  The runner comes to an end on every source, whatever the
    operation and the settings: after three steps for each candidate and
    three more the function has returned or an exception has left it, and
    further steps change nothing. *)
Theorem run_comes_to_an_end dir_path src w :
  (exists r, result (run_batches_ dir_path src w) = Some r)
  /\ forall n,
      (enough src <= n)%nat ->
      run_ n (initial World dir_path src w) = run_batches_ dir_path src w.
Proof.
  pose proof (run_batches_finished World process_file BATCH_SIZE
                MAX_FILES_PER_RUN dir_path src w) as Hfin.
  split.
  - unfold finished in Hfin. unfold result.
    destruct (pc (run_batches_ dir_path src w));
      try discriminate Hfin; eauto.
  - intros n Hn. unfold run_batches in *.
    replace n with (enough src + (n - enough src))%nat by lia.
    rewrite run_add. apply run_finished. exact Hfin.
Qed.

(** X7.  At every point of a run the candidates pulled are the first ones
    the generator yields, in its order, and the candidates passed to the
    operation are the first ones pulled, in the same order: none is
    skipped, none is passed twice, none comes from elsewhere. *)
Theorem calls_follow_the_generator dir_path src w n :
  let s := run_ n (initial World dir_path src w) in
  pulled s ++ source s = src
  /\ exists waiting, map fst (calls s) ++ waiting = pulled s.
Proof.
  cbn zeta.
  destruct (history_reachable_ dir_path src w n) as (Hsrc & _ & _ & _ & H).
  split; [ exact Hsrc | ].
  destruct (pc (run_ n (initial World dir_path src w)))
    as [ | rest | | rest | | e].
  - destruct H as (Hp & _). eauto.
  - destruct H as (Hp & _). eauto.
  - destruct H as (Hp & _). eauto.
  - destruct H as (Hp & _). eauto.
  - destruct H as (Hp & _). exists []. rewrite app_nil_r. exact Hp.
  - destruct H as (cs & f & rest & _ & _ & Hp & _). eauto.
Qed.

(** *** The limit and the pulls *)

Lemma pull_ok_step s :
  pull_ok MAX_FILES_PER_RUN s -> pull_ok MAX_FILES_PER_RUN (step_ s).
Proof.
  unfold pull_ok, step. intro H.
  destruct (pc s) as [ | [ | f rest] | | [ | f rest] | | e] eqn:Hpc.
  - specialize (H eq_refl). unfold pull.
    destruct (source s) as [ | f src']; cbn; [ discriminate | ].
    intros _. exact H.
  - unfold end_of_flush.
    destruct (Z.geb_spec (success (st s)) MAX_FILES_PER_RUN); cbn;
      [ discriminate | intros _; assumption ].
  - unfold process_item.
    destruct (process_file f (world s)) as [[b | e] w']; cbn; discriminate.
  - unfold after_loop. cbn. destruct (batch s); discriminate.
  - unfold end_of_tail. cbn. discriminate.
  - unfold process_item.
    destruct (process_file f (world s)) as [[b | e] w']; cbn; discriminate.
  - rewrite Hpc. discriminate.
  - rewrite Hpc. discriminate.
Qed.

Lemma pull_ok_reachable dir_path src w n :
  1 <= MAX_FILES_PER_RUN ->
  pull_ok MAX_FILES_PER_RUN (run_ n (initial World dir_path src w)).
Proof.
  intro HM. induction n as [ | n IH].
  - unfold pull_ok. cbn. lia.
  - rewrite run_S. apply pull_ok_step. exact IH.
Qed.

Lemma stopped_by_limit_step src s :
  history_ok src s ->
  left_by s = Some SafetyLimit ->
  left_by (step_ s) = Some SafetyLimit
  /\ pulled (step_ s) = pulled s
  /\ calls (step_ s) = calls s
  /\ st (step_ s) = st s
  /\ stdout (step_ s) = stdout s.
Proof.
  intros (_ & _ & _ & _ & H) Hlb. unfold step.
  destruct (pc s) as [ | rest | | rest | | e] eqn:Hpc.
  - destruct H as (_ & _ & Hnone). congruence.
  - destruct H as (_ & _ & _ & Hnone). congruence.
  - unfold after_loop. cbn. repeat split. exact Hlb.
  - destruct H as (_ & _ & _ & Hex & _). congruence.
  - repeat split. exact Hlb.
  - repeat split. exact Hlb.
Qed.

(** X8.  With a limit of at least one, a candidate is pulled from the
    generator only while the count of successes is below the limit; and
    once the loop has been left by the limit, nothing more is pulled,
    passed to the operation, counted or printed. *)
Theorem no_pull_once_limit_reached dir_path src w n :
  1 <= MAX_FILES_PER_RUN ->
  let s := run_ n (initial World dir_path src w) in
  (pc s = AtPull -> success (st s) < MAX_FILES_PER_RUN)
  /\ (left_by s = Some SafetyLimit ->
      forall m,
        pulled (run_ m s) = pulled s
        /\ calls (run_ m s) = calls s
        /\ st (run_ m s) = st s
        /\ stdout (run_ m s) = stdout s).
Proof.
  intro HM. cbn zeta. split.
  - apply pull_ok_reachable. exact HM.
  - intros Hlb m.
    assert (Hgen : forall k,
               left_by (run_ (n + k) (initial World dir_path src w))
               = Some SafetyLimit
               /\ pulled (run_ (n + k) (initial World dir_path src w))
                  = pulled (run_ n (initial World dir_path src w))
               /\ calls (run_ (n + k) (initial World dir_path src w))
                  = calls (run_ n (initial World dir_path src w))
               /\ st (run_ (n + k) (initial World dir_path src w))
                  = st (run_ n (initial World dir_path src w))
               /\ stdout (run_ (n + k) (initial World dir_path src w))
                  = stdout (run_ n (initial World dir_path src w))).
    { induction k as [ | k IH].
      - rewrite Nat.add_0_r. repeat split. exact Hlb.
      - replace (n + S k)%nat with (S (n + k)) by lia. rewrite run_S.
        destruct IH as (Hl & Hp & Hc & Hs & Ho).
        destruct (stopped_by_limit_step src _
                    (history_reachable_ dir_path src w (n + k)) Hl)
          as (Hl' & Hp' & Hc' & Hs' & Ho').
        repeat split; congruence. }
    rewrite <- run_add. destruct (Hgen m) as (_ & Hp & Hc & Hs & Ho).
    repeat split; assumption.
Qed.

(** *** The calls as a replay *)

Lemma replay_snoc fs :
  forall w0 cs w1 f o w2,
    replay process_file fs w0 = (cs, w1) ->
    forallb is_return cs = true ->
    process_file f w1 = (o, w2) ->
    replay process_file (fs ++ [f]) w0 = (cs ++ [(f, o)], w2).
Proof.
  induction fs as [ | a fs IH]; intros w0 cs w1 f o w2 Hr Hret Hcall.
  - cbn in Hr. injection Hr as <- <-. cbn. rewrite Hcall.
    destruct o; reflexivity.
  - cbn in Hr. cbn [app replay].
    destruct (process_file a w0) as [[b | e] wa].
    + destruct (replay process_file fs wa) as [cs' w''] eqn:Hrec.
      injection Hr as <- <-.
      cbn in Hret.
      rewrite (IH wa cs' w'' f o w2 Hrec Hret Hcall). reflexivity.
    + injection Hr as <- <-. discriminate Hret.
Qed.

Lemma replay_ok_step src w0 s :
  history_ok src s ->
  replay_ok process_file w0 s -> replay_ok process_file w0 (step_ s).
Proof.
  intros (_ & _ & _ & _ & Hh) H. unfold replay_ok in *. unfold step.
  destruct (pc s) as [ | [ | f rest] | | [ | f rest] | | e] eqn:Hpc.
  - unfold pull. destruct (source s); cbn; exact H.
  - unfold end_of_flush.
    destruct (success (st s) >=? MAX_FILES_PER_RUN); cbn; exact H.
  - destruct Hh as (_ & _ & Hret & _).
    unfold process_item.
    destruct (process_file f (world s)) as [o w'] eqn:Hcall.
    destruct o; cbn; rewrite map_app;
      apply (replay_snoc _ _ _ _ _ _ _ H Hret Hcall).
  - exact H.
  - exact H.
  - destruct Hh as (_ & _ & Hret & _).
    unfold process_item.
    destruct (process_file f (world s)) as [o w'] eqn:Hcall.
    destruct o; cbn; rewrite map_app;
      apply (replay_snoc _ _ _ _ _ _ _ H Hret Hcall).
  - exact H.
  - exact H.
Qed.

Lemma replay_ok_reachable dir_path src w n :
  replay_ok process_file w (run_ n (initial World dir_path src w)).
Proof.
  induction n as [ | n IH].
  - reflexivity.
  - rewrite run_S. apply (replay_ok_step src); [ | exact IH ].
    apply history_reachable.
Qed.

(** X9.  The runner is transparent to the per-item operation: at every
    point of a run, the calls made, with what each returned or raised, and
    the world are those of calling the operation on the candidates passed
    so far, one after the other from the world at the start.  So a run
    that no exception and no safety limit stops ends in the world, and
    with the counts of true and false results, of the operation called on
    all the candidates of the source in order. *)
Theorem runner_replays_the_operation dir_path src w :
  (forall n,
      let s := run_ n (initial World dir_path src w) in
      replay process_file (map fst (calls s)) w = (calls s, world s))
  /\ (let s := run_batches_ dir_path src w in
      escaped s = false ->
      left_by s <> Some SafetyLimit ->
      replay process_file src w = (calls s, world s)
      /\ result s
         = Some (inl {| success := results true (fst (replay process_file src w));
                        errors := results false (fst (replay process_file src w)) |})).
Proof.
  split.
  - intro n. apply replay_ok_reachable.
  - cbn zeta. intros Hesc Hlb.
    pose proof (run_batches_finished World process_file BATCH_SIZE
                  MAX_FILES_PER_RUN dir_path src w) as Hfin.
    pose proof (replay_ok_reachable dir_path src w (enough src)) as Hrep.
    unfold run_batches in *. unfold replay_ok in Hrep.
    destruct (history_reachable_ dir_path src w (enough src))
      as (Hsrc & Hs & He & _ & H).
    set (s := run_ (enough src) (initial World dir_path src w)) in *.
    unfold escaped in Hesc. unfold finished in Hfin. unfold result.
    destruct (pc s) as [ | rest | | rest | | e];
      try discriminate Hesc; try discriminate Hfin.
    destruct H as (Hp & _ & [[_ Hnil] | Hsl]); [ | contradiction ].
    rewrite Hnil, app_nil_r in Hsrc.
    rewrite Hp, Hsrc in Hrep. rewrite Hrep. cbn [fst].
    split; [ reflexivity | ].
    rewrite <- Hs, <- He. destruct (st s). reflexivity.
Qed.

(** *** Whole batches and the tail *)

Lemma tail_ok_step src s :
  1 <= BATCH_SIZE ->
  history_ok src s ->
  batches_ok BATCH_SIZE s ->
  tail_ok BATCH_SIZE s -> tail_ok BATCH_SIZE (step_ s).
Proof.
  intros HB (_ & _ & _ & _ & Hh) Hb H. unfold step.
  unfold tail_ok in H. unfold batches_ok in Hb.
  destruct (pc s) as [ | [ | f rest] | | [ | f rest] | | e] eqn:Hpc.
  - unfold tail_ok, pull. destruct (source s) as [ | f src']; cbn;
      [ exact I | ].
    destruct (Z.of_nat _ >=? BATCH_SIZE); exact I.
  - unfold tail_ok, end_of_flush.
    destruct (success (st s) >=? MAX_FILES_PER_RUN); cbn; exact I.
  - unfold tail_ok, process_item.
    destruct (process_file f (world s)) as [[b | e] w']; cbn; exact I.
  - destruct Hb as (Hlen & Hcalls).
    unfold tail_ok, after_loop. cbn.
    destruct (batch s) as [ | f b]; [ intros _; lia | lia ].
  - cbn [List.length] in H.
    unfold tail_ok, end_of_tail. cbn. intros _. lia.
  - cbn [List.length] in H.
    unfold tail_ok, process_item.
    destruct (process_file f (world s)) as [[b | e] w']; cbn;
      [ | exact I ].
    rewrite length_app. cbn [List.length]. lia.
  - unfold tail_ok. rewrite Hpc. exact H.
  - unfold tail_ok. rewrite Hpc. exact I.
Qed.

Lemma tail_ok_reachable dir_path src w n :
  1 <= BATCH_SIZE ->
  tail_ok BATCH_SIZE (run_ n (initial World dir_path src w)).
Proof.
  intro HB. induction n as [ | n IH].
  - exact I.
  - rewrite run_S.
    destruct (batches_reachable World process_file BATCH_SIZE
                MAX_FILES_PER_RUN dir_path src w n HB) as (Hh & Hb).
    apply (tail_ok_step src); assumption.
Qed.

(** X10.  With a batch size of at least one, a run that no exception and
    no safety limit stops has flushed, in the main loop, as many batches
    as the batch size goes into the number of candidates, and has printed
    that many progress lines; the candidates left over were processed in
    the tail. *)
Theorem batches_flushed_is_quotient dir_path src w :
  1 <= BATCH_SIZE ->
  let s := run_batches_ dir_path src w in
  escaped s = false ->
  left_by s <> Some SafetyLimit ->
  batch_count s = Z.of_nat (List.length src) / BATCH_SIZE
  /\ Z.of_nat (List.length (batch_lines (stdout s)))
     = Z.of_nat (List.length src) / BATCH_SIZE
  /\ Z.of_nat (List.length (calls s)) = Z.of_nat (List.length src).
Proof.
  intros HB. cbn zeta. intros Hesc Hlb.
  pose proof (run_batches_finished World process_file BATCH_SIZE
                MAX_FILES_PER_RUN dir_path src w) as Hfin.
  pose proof (tail_ok_reachable dir_path src w (enough src) HB) as Ht.
  unfold run_batches in *.
  destruct (history_reachable_ dir_path src w (enough src))
    as (Hsrc & _ & _ & Hbc & H).
  set (s := run_ (enough src) (initial World dir_path src w)) in *.
  unfold escaped in Hesc. unfold finished in Hfin. unfold tail_ok in Ht.
  destruct (pc s) as [ | rest | | rest | | e];
    try discriminate Hesc; try discriminate Hfin.
  destruct H as (Hp & _ & [[Hex Hnil] | Hsl]); [ | contradiction ].
  specialize (Ht Hex).
  rewrite Hnil, app_nil_r in Hsrc.
  assert (Hlen : Z.of_nat (List.length (calls s))
                 = Z.of_nat (List.length src)).
  { rewrite <- Hsrc, <- Hp, length_map. reflexivity. }
  assert (Hq : batch_count s = Z.of_nat (List.length src) / BATCH_SIZE).
  { rewrite <- Hlen.
    apply (Z.div_unique_pos _ _ _
             (Z.of_nat (List.length (calls s)) - BATCH_SIZE * batch_count s));
      lia. }
  split; [ exact Hq | split; [ | exact Hlen ] ].
  rewrite <- Hbc. exact Hq.
Qed.

(** *** What is printed *)

Lemma lines_ok_step src s :
  history_ok src s ->
  batches_ok BATCH_SIZE s ->
  lines_ok BATCH_SIZE s -> lines_ok BATCH_SIZE (step_ s).
Proof.
  intros (_ & Hs & He & Hbc & Hh) Hb H. unfold step.
  unfold batches_ok in Hb.
  destruct (pc s) as [ | [ | f rest] | | [ | f rest] | | e] eqn:Hpc.
  - unfold lines_ok, pull. destruct (source s); cbn; exact H.
  - destruct Hh as (_ & _ & Hret & _). destruct Hb as (_ & Hcalls).
    cbn [List.length] in Hcalls.
    pose proof (results_total _ Hret) as Htot.
    assert (Hnew :
      forall tl, batch_lines tl = [] ->
        forall i line,
          nth_error
            (batch_lines
               (stdout s
                ++ OutBatch (batch_count s + 1) (success (st s))
                     (errors (st s)) :: tl)) i = Some line ->
          exists su er,
            line = OutBatch (Z.of_nat i + 1) su er
            /\ su + er = BATCH_SIZE * (Z.of_nat i + 1)
            /\ 0 <= su /\ 0 <= er).
    { intros tl Htl i line Hnth.
      rewrite batch_lines_app in Hnth.
      change (batch_lines (OutBatch (batch_count s + 1) (success (st s))
                             (errors (st s)) :: tl))
        with (OutBatch (batch_count s + 1) (success (st s)) (errors (st s))
              :: batch_lines tl) in Hnth.
      rewrite Htl in Hnth.
      destruct (Nat.lt_ge_cases i (List.length (batch_lines (stdout s))))
        as [Hlt | Hge].
      - rewrite nth_error_app1 in Hnth by exact Hlt. apply (H i line Hnth).
      - rewrite nth_error_app2 in Hnth by exact Hge.
        destruct (i - List.length (batch_lines (stdout s)))%nat as [ | k] eqn:Hk;
          [ | destruct k; discriminate Hnth ].
        cbn in Hnth. injection Hnth as <-.
        assert (Hi : Z.of_nat i = batch_count s) by lia.
        exists (success (st s)), (errors (st s)).
        rewrite Hi. repeat split; unfold results in *; lia. }
    unfold lines_ok, end_of_flush.
    destruct (success (st s) >=? MAX_FILES_PER_RUN); cbn [stdout].
    + apply (Hnew [OutLimit MAX_FILES_PER_RUN]). reflexivity.
    + apply (Hnew []). reflexivity.
  - unfold lines_ok, process_item.
    destruct (process_file f (world s)) as [[b | e] w']; cbn; exact H.
  - exact H.
  - exact H.
  - unfold lines_ok, process_item.
    destruct (process_file f (world s)) as [[b | e] w']; cbn; exact H.
  - exact H.
  - exact H.
Qed.

(** X11.  With a batch size of at least one, the progress lines printed in
    a run are numbered 1, 2, ... in the order they are printed, and the
    two counts of the line numbered [k] are not negative and add up to [k]
    times the batch size. *)
Theorem progress_lines_are_numbered dir_path src w n :
  1 <= BATCH_SIZE ->
  let s := run_ n (initial World dir_path src w) in
  forall i line,
    nth_error (batch_lines (stdout s)) i = Some line ->
    exists su er,
      line = OutBatch (Z.of_nat i + 1) su er
      /\ su + er = BATCH_SIZE * (Z.of_nat i + 1)
      /\ 0 <= su /\ 0 <= er.
Proof.
  intro HB. cbn zeta. induction n as [ | n IH].
  - intros i line Hnth. destruct i; discriminate Hnth.
  - rewrite run_S.
    destruct (batches_reachable World process_file BATCH_SIZE
                MAX_FILES_PER_RUN dir_path src w n HB) as (Hh & Hb).
    apply (lines_ok_step src); assumption.
Qed.

Lemma limit_line_ok_step src s :
  history_ok src s ->
  limit_line_ok MAX_FILES_PER_RUN s ->
  limit_line_ok MAX_FILES_PER_RUN (step_ s).
Proof.
  intros (_ & _ & _ & _ & Hh) H. unfold step.
  destruct (pc s) as [ | [ | f rest] | | [ | f rest] | | e] eqn:Hpc.
  - destruct Hh as (_ & _ & Hnone).
    unfold limit_line_ok in H. rewrite Hnone in H.
    unfold limit_line_ok, pull. destruct (source s); cbn.
    + exact H.
    + rewrite Hnone. exact H.
  - destruct Hh as (_ & _ & _ & Hnone).
    unfold limit_line_ok in H. rewrite Hnone in H.
    unfold limit_line_ok, end_of_flush.
    destruct (success (st s) >=? MAX_FILES_PER_RUN); cbn.
    + exists (stdout s ++ [OutBatch (batch_count s + 1) (success (st s))
                             (errors (st s))]).
      rewrite <- app_assoc. split; [ reflexivity | ].
      unfold limit_lines in *. rewrite filter_app, H. reflexivity.
    + rewrite Hnone. unfold limit_lines in *.
      rewrite filter_app, H. reflexivity.
  - unfold limit_line_ok, process_item.
    destruct (process_file f (world s)) as [[b | e] w']; cbn; exact H.
  - exact H.
  - exact H.
  - unfold limit_line_ok, process_item.
    destruct (process_file f (world s)) as [[b | e] w']; cbn; exact H.
  - exact H.
  - exact H.
Qed.

(** X12.  The warning of the safety limit is printed exactly when the loop
    is left by the limit: in a state reached after that, it is the last
    line printed and there is no other; in any other state, none has been
    printed. *)
Theorem limit_warning_iff_stopped_by_limit dir_path src w n :
  let s := run_ n (initial World dir_path src w) in
  (left_by s = Some SafetyLimit ->
   exists before,
     stdout s = before ++ [OutLimit MAX_FILES_PER_RUN]
     /\ limit_lines before = [])
  /\ (left_by s <> Some SafetyLimit -> limit_lines (stdout s) = []).
Proof.
  cbn zeta.
  assert (H : limit_line_ok MAX_FILES_PER_RUN
                (run_ n (initial World dir_path src w))).
  { induction n as [ | n IH].
    - reflexivity.
    - rewrite run_S. apply (limit_line_ok_step src); [ | exact IH ].
      apply history_reachable. }
  unfold limit_line_ok in H.
  destruct (left_by (run_ n (initial World dir_path src w)))
    as [[ | ] | ].
  - split; [ discriminate | intros _; exact H ].
  - split; [ intros _; exact H | congruence ].
  - split; [ discriminate | intros _; exact H ].
Qed.

(** *** An operation that always succeeds *)

Lemma all_true_ok_step src s :
  (forall f w, fst (process_file f w) = Returns true) ->
  history_ok src s ->
  batches_ok BATCH_SIZE s ->
  pull_ok MAX_FILES_PER_RUN s ->
  all_true_ok BATCH_SIZE MAX_FILES_PER_RUN s ->
  all_true_ok BATCH_SIZE MAX_FILES_PER_RUN (step_ s).
Proof.
  intros Htrue (_ & Hs & He & _ & Hh) Hb Hpull (Herr & Hesc & Hex).
  unfold step. unfold batches_ok in Hb. unfold pull_ok in Hpull.
  destruct (pc s) as [ | [ | f rest] | | [ | f rest] | | e] eqn:Hpc.
  - destruct Hh as (_ & Hret & Hnone). destruct Hb as (_ & Hcalls).
    specialize (Hpull eq_refl).
    pose proof (results_total _ Hret) as Htot.
    unfold all_true_ok, pull, escaped.
    destruct (source s) as [ | f src']; cbn.
    + repeat split; [ exact Herr | ]. intros _. lia.
    + repeat split; [ exact Herr | | rewrite Hnone; discriminate ].
      destruct (Z.of_nat _ >=? BATCH_SIZE); reflexivity.
  - destruct Hh as (_ & _ & _ & Hnone).
    unfold all_true_ok, end_of_flush, escaped.
    destruct (success (st s) >=? MAX_FILES_PER_RUN); cbn.
    + repeat split; [ exact Herr | discriminate ].
    + repeat split; [ exact Herr | rewrite Hnone; discriminate ].
  - specialize (Htrue f (world s)).
    unfold all_true_ok, process_item, escaped.
    destruct (process_file f (world s)) as [o w']. cbn in Htrue. subst o.
    cbn. repeat split; assumption.
  - unfold all_true_ok, after_loop, escaped. cbn.
    repeat split; [ exact Herr | | exact Hex ].
    destruct (batch s); reflexivity.
  - unfold all_true_ok, end_of_tail, escaped. cbn.
    repeat split; assumption.
  - specialize (Htrue f (world s)).
    unfold all_true_ok, process_item, escaped.
    destruct (process_file f (world s)) as [o w']. cbn in Htrue. subst o.
    cbn. repeat split; assumption.
  - unfold all_true_ok. repeat split; assumption.
  - unfold escaped in Hesc. rewrite Hpc in Hesc. discriminate Hesc.
Qed.

Lemma all_true_ok_reachable dir_path src w n :
  1 <= BATCH_SIZE -> 1 <= MAX_FILES_PER_RUN ->
  (forall f w, fst (process_file f w) = Returns true) ->
  all_true_ok BATCH_SIZE MAX_FILES_PER_RUN
    (run_ n (initial World dir_path src w)).
Proof.
  intros HB HM Htrue. induction n as [ | n IH].
  - unfold all_true_ok. cbn. repeat split. discriminate.
  - rewrite run_S.
    destruct (batches_reachable World process_file BATCH_SIZE
                MAX_FILES_PER_RUN dir_path src w n HB) as (Hh & Hb).
    apply (all_true_ok_step src); try assumption.
    apply pull_ok_reachable. exact HM.
Qed.

(* Result of a run whose per-item operation always returns [true]. *)
Lemma never_failing_operation_result dir_path src w :
  1 <= BATCH_SIZE ->
  1 <= MAX_FILES_PER_RUN ->
  (forall f w, fst (process_file f w) = Returns true) ->
  result (run_batches_ dir_path src w)
  = Some (inl {| success :=
                   Z.min (Z.of_nat (List.length src))
                     (BATCH_SIZE
                      * ((MAX_FILES_PER_RUN + BATCH_SIZE - 1) / BATCH_SIZE));
                 errors := 0 |}).
Proof.
  intros HB HM Htrue.
  pose proof (run_batches_finished World process_file BATCH_SIZE
                MAX_FILES_PER_RUN dir_path src w) as Hfin.
  pose proof (tail_ok_reachable dir_path src w (enough src) HB) as Ht.
  pose proof (all_true_ok_reachable dir_path src w (enough src) HB HM Htrue)
    as (Herr & Hesc & Hex).
  destruct (invariants_reachable World process_file BATCH_SIZE
              MAX_FILES_PER_RUN dir_path src w (enough src) HB HM)
    as ((Hsrc & Hs & He & _ & H) & Hb & Hl).
  unfold run_batches in *.
  set (s := run_ (enough src) (initial World dir_path src w)) in *.
  unfold escaped in Hesc. unfold finished in Hfin. unfold result.
  unfold tail_ok in Ht. unfold batches_ok in Hb. unfold limit_ok in Hl.
  destruct (pc s) as [ | rest | | rest | | e];
    try discriminate Hesc; try discriminate Hfin.
  destruct H as (Hp & Hret & Hleft). destruct Hb as (_ & Hwhole).
  pose proof (results_total _ Hret) as Htot.
  assert (Hcalls : Z.of_nat (List.length (calls s))
                   <= Z.of_nat (List.length src)).
  { rewrite <- Hsrc, <- Hp, length_app, length_map. lia. }
  pose proof (Z.div_mod (MAX_FILES_PER_RUN + BATCH_SIZE - 1) BATCH_SIZE
                ltac:(lia)) as Hdm.
  pose proof (Z.mod_pos_bound (MAX_FILES_PER_RUN + BATCH_SIZE - 1) BATCH_SIZE
                ltac:(lia)) as Hmod.
  set (q := (MAX_FILES_PER_RUN + BATCH_SIZE - 1) / BATCH_SIZE) in *.
  assert (Hsucc : success (st s)
                  = Z.min (Z.of_nat (List.length src)) (BATCH_SIZE * q)).
  { destruct Hleft as [[Hexh Hnil] | Hsl].
    - specialize (Ht Hexh). specialize (Hex Hexh).
      rewrite Hnil, app_nil_r in Hsrc.
      assert (Hlen : Z.of_nat (List.length (calls s))
                     = Z.of_nat (List.length src))
        by (rewrite <- Hsrc, <- Hp, length_map; reflexivity).
      assert (batch_count s < q) by nia.
      rewrite Z.min_l by nia. lia.
    - specialize (Hl Hsl). specialize (Hwhole Hsl).
      assert (batch_count s = q) by nia.
      rewrite Z.min_r by nia. nia. }
  rewrite <- Hsucc, <- Herr. destruct (st s). reflexivity.
Qed.

(** X13.  With a batch size and a limit of at least one and an operation
    that returns true on every candidate, the run returns, with no error
    counted, and the count of successes is the number of candidates when
    that is less than the limit rounded up to whole batches, and the limit
    rounded up to whole batches otherwise. *)
Theorem successes_of_an_operation_that_never_fails dir_path src w :
  1 <= BATCH_SIZE ->
  1 <= MAX_FILES_PER_RUN ->
  (forall f w, fst (process_file f w) = Returns true) ->
  result (run_batches_ dir_path src w)
  = Some (inl {| success :=
                   Z.min (Z.of_nat (List.length src))
                     (BATCH_SIZE
                      * ((MAX_FILES_PER_RUN + BATCH_SIZE - 1) / BATCH_SIZE));
                 errors := 0 |}).
Proof. exact (never_failing_operation_result dir_path src w). Qed.

(** The paths the operation has been called on are the first candidates
    of the source, in order. *)
Lemma calls_prefix_of_source dir_path src w n :
  exists rest,
    map fst (calls (run_ n (initial World dir_path src w))) ++ rest = src.
Proof.
  destruct (history_reachable_ dir_path src w n) as (Hsrc & _ & _ & _ & H).
  set (s := run_ n (initial World dir_path src w)) in *.
  rewrite <- Hsrc.
  destruct (pc s) as [ | rest | | rest | | e].
  - destruct H as (<- & _). rewrite <- app_assoc. eauto.
  - destruct H as (<- & _). rewrite <- app_assoc. eauto.
  - destruct H as (<- & _). rewrite <- app_assoc. eauto.
  - destruct H as (<- & _). rewrite <- app_assoc. eauto.
  - destruct H as (<- & _). eauto.
  - destruct H as (cs & f & rest & _ & _ & <- & _).
    rewrite <- app_assoc. eauto.
Qed.

End RunnerExtras.

(** *** The properties above at concrete runs *)

Lemma run_comes_to_an_end_witness :
  (enough (candidates 30) <= 200)%nat
  /\ run unit always_true 25 500 200 (initial unit [] (candidates 30) tt)
     = run_batches unit always_true 25 500 [] (candidates 30) tt.
Proof.
  assert (H : (enough (candidates 30) <= 200)%nat) by (vm_compute; lia).
  split; [ exact H | ].
  exact (proj2 (run_comes_to_an_end unit always_true 25 500
                  [] (candidates 30) tt) 200%nat H).
Defined.

Lemma no_pull_once_limit_reached_witness :
  let at_step n := run unit always_true 2 1 n
                     (initial unit [] (candidates 5) tt) in
  1 <= 1
  /\ (pc (at_step 1%nat) = AtPull /\ success (st (at_step 1%nat)) < 1)
  /\ (left_by (at_step 5%nat) = Some SafetyLimit
      /\ pulled (run unit always_true 2 1 20 (at_step 5%nat))
         = pulled (at_step 5%nat)).
Proof.
  cbn zeta. split; [ lia | split ].
  - split; [ reflexivity | ].
    exact (proj1 (no_pull_once_limit_reached unit always_true 2 1
                    [] (candidates 5) tt 1 ltac:(lia)) eq_refl).
  - split; [ reflexivity | ].
    exact (proj1 (proj2 (no_pull_once_limit_reached unit always_true 2 1
                           [] (candidates 5) tt 5 ltac:(lia)) eq_refl 20%nat)).
Defined.

Lemma runner_replays_the_operation_witness :
  let pf := by_name ["ii"; "iiii"] [] in
  let s := run_batches unit pf 2 500 [] (candidates 5) tt in
  (escaped s = false /\ left_by s <> Some SafetyLimit)
  /\ result s = Some (inl {| success := 3; errors := 2 |}).
Proof.
  cbn zeta.
  assert (Hlb : left_by (run_batches unit (by_name ["ii"; "iiii"] []) 2 500
                           [] (candidates 5) tt) <> Some SafetyLimit)
    by (vm_compute; discriminate).
  split; [ split; [ reflexivity | exact Hlb ] | ].
  exact (proj2 (proj2 (runner_replays_the_operation unit
                         (by_name ["ii"; "iiii"] []) 2 500
                         [] (candidates 5) tt) eq_refl Hlb)).
Defined.

Lemma batches_flushed_is_quotient_witness :
  let s := run_batches unit always_true 25 500 [] (candidates 60) tt in
  (1 <= 25 /\ escaped s = false /\ left_by s <> Some SafetyLimit)
  /\ batch_count s = 2.
Proof.
  cbn zeta.
  assert (Hlb : left_by (run_batches unit always_true 25 500
                           [] (candidates 60) tt) <> Some SafetyLimit)
    by (vm_compute; discriminate).
  assert (Hesc : escaped (run_batches unit always_true 25 500
                            [] (candidates 60) tt) = false)
    by (vm_compute; reflexivity).
  split; [ split; [ lia | split; assumption ] | ].
  rewrite (proj1 (batches_flushed_is_quotient unit always_true 25 500
                    [] (candidates 60) tt ltac:(lia) Hesc Hlb)).
  vm_compute. reflexivity.
Defined.

Lemma progress_lines_are_numbered_witness :
  let s := run_batches unit (by_name ["i"] []) 2 500 [] (candidates 5) tt in
  1 <= 2
  /\ nth_error (batch_lines (stdout s)) 1 = Some (OutBatch 2 3 1)
  /\ exists su er, OutBatch 2 3 1 = OutBatch (Z.of_nat 1 + 1) su er
                   /\ su + er = 2 * (Z.of_nat 1 + 1).
Proof.
  cbn zeta. split; [ lia | split; [ vm_compute; reflexivity | ] ].
  destruct (progress_lines_are_numbered unit (by_name ["i"] []) 2 500
              [] (candidates 5) tt (enough (candidates 5)) ltac:(lia)
              1%nat (OutBatch 2 3 1)) as (su & er & H1 & H2 & _).
  - vm_compute. reflexivity.
  - exists su, er. split; assumption.
Defined.

Lemma limit_warning_iff_stopped_by_limit_witness :
  let s := run_batches unit always_true 2 1 [] (candidates 5) tt in
  left_by s = Some SafetyLimit
  /\ exists before, stdout s = before ++ [OutLimit 1].
Proof.
  cbn zeta. split; [ reflexivity | ].
  destruct (proj1 (limit_warning_iff_stopped_by_limit unit always_true 2 1
                     [] (candidates 5) tt (enough (candidates 5))) eq_refl)
    as (before & H & _).
  exists before. exact H.
Defined.

Lemma successes_of_an_operation_that_never_fails_witness :
  (1 <= 25 /\ 1 <= 100
   /\ forall f w, fst (always_true f w) = Returns true)
  /\ result (run_batches unit always_true 25 100 [] (candidates 130) tt)
     = Some (inl {| success := 100; errors := 0 |}).
Proof.
  split; [ split; [ lia | split; [ lia | reflexivity ] ] | ].
  rewrite (successes_of_an_operation_that_never_fails unit always_true 25 100
             [] (candidates 130) tt ltac:(lia) ltac:(lia)
             (fun f w => eq_refl)).
  vm_compute. reflexivity.
Defined.

(* ===================================================================== *)
(** ** The script as a whole *)

(** X15.  On a console that takes every line, [main], run on an archive
    that exists, ends by printing the summary, which reports no error and
    as many successes as the traversal to depth 3 yields files, up to
    500. *)
Theorem script_reports_files_up_to_500
  (Console : Type) (print : string -> Console -> option exn * Console)
  (d : node) (w : Console) :
  (forall line c, fst (print line c) = None) ->
  let n := Z.of_nat (List.length (yielded [Script.ARCHIVE_BASE] d 3)) in
  exists progress,
    fst (Script.main Console print (Some d) w)
    = OutBanner 25 500 :: OutProcessing [Script.ARCHIVE_BASE] :: progress
      ++ [OutComplete (Z.min n 500) 0].
Proof.
  intros Hprint n.
  assert (Htrue : forall f c,
             fst (Script.process_file Console print f c) = Returns true).
  { intros f c. unfold Script.process_file.
    specialize (Hprint ("   Processing: " ++ name f)%string c).
    destruct (print _ c) as [o c']. cbn in Hprint. subst o. reflexivity. }
  pose proof (never_failing_operation_result
                Console (Script.process_file Console print)
                Script.BATCH_SIZE Script.MAX_FILES_PER_RUN
                [Script.ARCHIVE_BASE] (yielded [Script.ARCHIVE_BASE] d 3) w
                ltac:(unfold Script.BATCH_SIZE; lia)
                ltac:(unfold Script.MAX_FILES_PER_RUN; lia) Htrue) as Hres.
  change (Script.BATCH_SIZE
          * ((Script.MAX_FILES_PER_RUN + Script.BATCH_SIZE - 1)
             / Script.BATCH_SIZE)) with 500 in Hres.
  fold n in Hres.
  unfold Script.main, main, process_directory_optimized.
  set (s := run_batches Console (Script.process_file Console print)
              Script.BATCH_SIZE Script.MAX_FILES_PER_RUN
              [Script.ARCHIVE_BASE] (yielded [Script.ARCHIVE_BASE] d 3) w) in *.
  assert (Hout : exists progress,
             stdout s = OutProcessing [Script.ARCHIVE_BASE] :: progress).
  { subst s. unfold run_batches.
    generalize (enough (yielded [Script.ARCHIVE_BASE] d 3)). intro k.
    induction k as [ | k IH].
    - exists []. reflexivity.
    - rewrite run_S. destruct IH as (progress & IH).
      set (t := run Console (Script.process_file Console print)
                  Script.BATCH_SIZE Script.MAX_FILES_PER_RUN k _) in *.
      unfold step.
      destruct (pc t) as [ | [ | f rest] | | [ | f rest] | | e].
      + unfold pull. destruct (source t); cbn; eauto.
      + unfold end_of_flush.
        destruct (success (st t) >=? Script.MAX_FILES_PER_RUN); cbn;
          rewrite IH; cbn; eauto.
      + unfold process_item.
        destruct (Script.process_file Console print f (world t))
          as [[b | e] c']; cbn; eauto.
      + cbn. eauto.
      + cbn. eauto.
      + unfold process_item.
        destruct (Script.process_file Console print f (world t))
          as [[b | e] c']; cbn; eauto.
      + eauto.
      + eauto. }
  destruct Hout as (progress & Hout).
  unfold result in Hres.
  destruct (pc s); try discriminate Hres.
  injection Hres as Hst. rewrite Hst. cbn [success errors fst].
  exists progress. rewrite Hout. reflexivity.
Qed.

Lemma script_reports_files_up_to_500_witness :
  (forall line c, fst (Script.print_line line c) = None)
  /\ exists progress,
      fst (Script.main (list string) Script.print_line
             (Some readable_example) [])
      = OutBanner 25 500 :: OutProcessing [Script.ARCHIVE_BASE] :: progress
        ++ [OutComplete 3 0].
Proof.
  split; [ reflexivity | ].
  exact (script_reports_files_up_to_500 (list string) Script.print_line
           readable_example [] (fun line c => eq_refl)).
Defined.

(** X14.  The traversal and the runner together, in the script as it is:
    its [process_file] prints and leaves the tree as it is, so that the
    candidates are those of the tree at the start.  On a tree with
    distinct names, whatever the console does, [process_file] is never
    called twice on the same path, and every path it is called on is a
    regular file that the listings deliver, with no hidden component, at
    depth at most 3, with an allowed extension and a name that is not
    formatted. *)
Theorem only_matching_files_are_processed
  (Console : Type) (print : string -> Console -> option exn * Console)
  (dir_path : Path) (d : node) (w : Console) :
  unique_namesb d = true ->
  let s := Script.process_directory_optimized Console print dir_path d w in
  NoDup (map fst (calls s))
  /\ forall p,
      In p (map fst (calls s)) ->
      exists rel, p = dir_path ++ rel /\ matching delivered d 3 rel.
Proof.
  intro Hun. cbn zeta.
  unfold Script.process_directory_optimized, process_directory_optimized,
    run_batches.
  destruct (calls_prefix_of_source
              Console (Script.process_file Console print)
              Script.BATCH_SIZE Script.MAX_FILES_PER_RUN
              dir_path (yielded dir_path d 3) w
              (enough (yielded dir_path d 3))) as (rest & Hpre).
  pose proof (yielded_NoDup d dir_path 3 0 (unique_namesb_sound d Hun)) as Hnd.
  fold (yielded dir_path d 3) in Hnd. rewrite <- Hpre in Hnd.
  split; [ apply (NoDup_app_remove_r _ _ Hnd) | ].
  intros p Hp.
  assert (Hy : In p (yielded dir_path d 3))
    by (rewrite <- Hpre; apply in_or_app; left; exact Hp).
  unfold yielded in Hy. apply yielded_iff in Hy.
  rewrite Z.sub_0_r in Hy. exact Hy.
Qed.

Lemma only_matching_files_are_processed_witness :
  let s := Script.process_directory_optimized (list string) Script.print_line
             ["archive"] archive_example [] in
  unique_namesb archive_example = true
  /\ map fst (calls s)
     = [["archive"; "a.pdf"]; ["archive"; "sub"; "c.TXT"];
        ["archive"; "sub"; "f.docx"]]
  /\ NoDup (map fst (calls s)).
Proof.
  cbn zeta. split; [ reflexivity | split; [ reflexivity | ] ].
  exact (proj1 (only_matching_files_are_processed (list string)
                  Script.print_line ["archive"] archive_example []
                  eq_refl)).
Defined.

(* ===================================================================== *)
(** ** Properties of the category folders script *)

Module SubdirsFacts.

Import Subdirs.

Lemma path_exists_In fs p : path_exists fs p = true <-> In p fs.
Proof.
  unfold path_exists. destruct (in_dec path_eq_dec p fs); split;
    intro H; try reflexivity; try assumption; try discriminate H.
  contradiction.
Qed.

Lemma path_exists_false fs p : path_exists fs p = false <-> ~ In p fs.
Proof.
  unfold path_exists. destruct (in_dec path_eq_dec p fs); split;
    intro H; try reflexivity; try assumption; try discriminate H.
  contradiction.
Qed.

Lemma prefixes_In p :
  forall q, In q (prefixes p) <-> q <> [] /\ exists r, p = q ++ r.
Proof.
  induction p as [ | n p IH]; intro q; cbn.
  - split; [ intros [] | ].
    intros (Hq & r & Hr). destruct q; [ contradiction | discriminate Hr ].
  - split.
    + intros [<- | H].
      * split; [ discriminate | ]. exists p. reflexivity.
      * apply in_map_iff in H. destruct H as (q' & <- & Hq').
        apply IH in Hq'. destruct Hq' as (_ & r & ->).
        split; [ discriminate | ]. exists r. reflexivity.
    + intros (Hq & r & Hr).
      destruct q as [ | m q]; [ contradiction | ].
      cbn in Hr. injection Hr as <- ->.
      destruct q as [ | m' q]; [ left; reflexivity | right ].
      apply in_map. apply IH. split; [ discriminate | ].
      exists r. reflexivity.
Qed.

Lemma add_missing_In fs q x : In x (add_missing fs q) <-> In x fs \/ x = q.
Proof.
  unfold add_missing. destruct (path_exists fs q) eqn:Hq.
  - apply path_exists_In in Hq. split; [ tauto | ].
    intros [H | ->]; assumption.
  - rewrite in_app_iff. cbn. split.
    + intros [H | [<- | []]]; [ left; exact H | right; reflexivity ].
    + intros [H | ->]; [ left; exact H | right; left; reflexivity ].
Qed.

Lemma fold_add_missing_In ps :
  forall fs x,
    In x (fold_left add_missing ps fs) <-> In x fs \/ In x ps.
Proof.
  induction ps as [ | q ps IH]; intros fs x; cbn.
  - tauto.
  - rewrite IH, add_missing_In. split.
    + intros [[H | ->] | H]; auto.
    + intros [H | [<- | H]]; auto.
Qed.


Section Facts.

Variable mkdir_refused : files -> Path -> option exn.

Local Abbreviation mkdir_ := (mkdir mkdir_refused).
Local Abbreviation loop_ := (for_category_in mkdir_refused).
Local Abbreviation create_ := (create_categories_for_year mkdir_refused).

Lemma mkdir_In p fs :
  forall x,
    In x (snd (mkdir_ p fs))
    <-> In x fs \/ (fst (mkdir_ p fs) = None /\ In x (prefixes p)).
Proof.
  intro x. unfold mkdir. destruct (mkdir_refused fs p) as [e | ]; cbn.
  - split; [ tauto | ]. intros [H | [H _]]; [ exact H | discriminate H ].
  - rewrite fold_add_missing_In. split; [ | tauto ].
    intros [H | H]; auto.
Qed.

Lemma mkdir_creates p fs :
  p <> [] -> fst (mkdir_ p fs) = None -> In p (snd (mkdir_ p fs)).
Proof.
  intros Hp Hnone. apply mkdir_In. right. split; [ exact Hnone | ].
  apply prefixes_In. split; [ exact Hp | ].
  exists []. rewrite app_nil_r. reflexivity.
Qed.

(** What the loop over the categories keeps, whatever is refused. *)
Lemma loop_accounts yp dry cats :
  forall stats out fs,
    let r := loop_ yp dry cats stats out fs in
    total (fst (fst r)) = total stats + Z.of_nat (List.length cats)
    /\ List.length (snd (fst r)) = (List.length out + List.length cats)%nat
    /\ created stats <= created (fst (fst r))
    /\ existing stats <= existing (fst (fst r))
    /\ skipped stats <= skipped (fst (fst r))
    /\ (dry = true -> snd r = fs /\ skipped (fst (fst r)) = skipped stats)
    /\ (forall x, In x fs -> In x (snd r))
    /\ (forall x, In x (snd r) ->
                  In x fs
                  \/ exists c, In c cats /\ In x (prefixes (joinpath yp c))).
Proof.
  induction cats as [ | c cats IH]; intros stats out fs; cbn zeta.
  - cbn. unfold total.
    split; [ lia | ]. split; [ lia | ]. split; [ lia | ].
    split; [ lia | ]. split; [ lia | ].
    split; [ intros _; split; reflexivity | ].
    split; [ intros x Hx; exact Hx | intros x Hx; left; exact Hx ].
  - cbn [for_category_in].
    assert (Hstep :
      forall stats' line fs',
        total stats' = total stats + 1 ->
        created stats <= created stats' ->
        existing stats <= existing stats' ->
        skipped stats <= skipped stats' ->
        (dry = true -> fs' = fs /\ skipped stats' = skipped stats) ->
        (forall x, In x fs -> In x fs') ->
        (forall x, In x fs' -> In x fs \/ In x (prefixes (joinpath yp c))) ->
        let r := loop_ yp dry cats stats' (out ++ [line]) fs' in
        total (fst (fst r)) = total stats + Z.of_nat (List.length (c :: cats))
        /\ List.length (snd (fst r))
           = (List.length out + List.length (c :: cats))%nat
        /\ created stats <= created (fst (fst r))
        /\ existing stats <= existing (fst (fst r))
        /\ skipped stats <= skipped (fst (fst r))
        /\ (dry = true -> snd r = fs /\ skipped (fst (fst r)) = skipped stats)
        /\ (forall x, In x fs -> In x (snd r))
        /\ (forall x, In x (snd r) ->
                      In x fs
                      \/ exists c', In c' (c :: cats)
                                    /\ In x (prefixes (joinpath yp c')))).
    { intros stats' line fs' Ht Hc He Hs Hd Hg Hn.
      specialize (IH stats' (out ++ [line]) fs'). cbn zeta in IH.
      destruct IH as (Ht' & Hl' & Hc' & He' & Hs' & Hd' & Hg' & Hn').
      rewrite length_app in Hl'. cbn [List.length] in *.
      cbn zeta.
      split; [ lia | ]. split; [ lia | ]. split; [ lia | ].
      split; [ lia | ]. split; [ lia | ].
      split.
      { intro Hdry. destruct (Hd Hdry) as (Hfs & Hsk).
        destruct (Hd' Hdry) as (Hfs' & Hsk'). split; congruence. }
      split.
      { intros x Hx. apply Hg'. apply Hg. exact Hx. }
      intros x Hx. destruct (Hn' x Hx) as [H | (c' & Hin & H)].
      - destruct (Hn x H) as [H' | H']; [ left; exact H' | ].
        right. exists c. split; [ left; reflexivity | exact H' ].
      - right. exists c'. split; [ right; exact Hin | exact H ]. }
    destruct (path_exists fs (joinpath yp c)) eqn:Hex.
    + apply Hstep; unfold total; cbn [created existing skipped];
        try lia; auto.
    + destruct dry; cbn [negb].
      * apply Hstep; unfold total; cbn [created existing skipped];
          try lia; auto.
      * pose proof (mkdir_In (joinpath yp c) fs) as Hmk.
        destruct (mkdir_ (joinpath yp c) fs) as [[e | ] fs'];
          cbn [fst snd] in Hmk.
        -- apply Hstep; unfold total; cbn [created existing skipped];
             try lia; try discriminate.
           ++ intros x Hx. apply Hmk. left. exact Hx.
           ++ intros x Hx. apply Hmk in Hx.
              destruct Hx as [Hx | [Hx _]]; [ left; exact Hx | discriminate Hx ].
        -- apply Hstep; unfold total; cbn [created existing skipped];
             try lia; try discriminate.
           ++ intros x Hx. apply Hmk. left. exact Hx.
           ++ intros x Hx. apply Hmk in Hx.
              destruct Hx as [Hx | [_ Hx]]; [ left; exact Hx | right; exact Hx ].
Qed.

(** A real run in which nothing is skipped leaves every category folder
    in place. *)
Lemma loop_creates_all yp cats :
  forall stats out fs,
    let r := loop_ yp false cats stats out fs in
    skipped (fst (fst r)) = skipped stats ->
    forall c, In c cats -> In (joinpath yp c) (snd r).
Proof.
  induction cats as [ | c0 cats IH]; intros stats out fs; cbn zeta;
    [ intros _ c [] | ].
  cbn [for_category_in].
  destruct (path_exists fs (joinpath yp c0)) eqn:Hex.
  - intros Hsk c [<- | Hc].
    + apply (proj1 (proj2 (proj2 (proj2 (proj2 (proj2 (proj2
               (loop_accounts yp false cats _ _ fs)))))))).
      apply path_exists_In. exact Hex.
    + apply (IH _ _ fs Hsk c Hc).
  - cbn [negb].
    pose proof (mkdir_creates (joinpath yp c0) fs) as Hmk.
    destruct (mkdir_ (joinpath yp c0) fs) as [[e | ] fs']; cbn [fst snd] in Hmk.
    + intro Hsk. exfalso.
      pose proof (loop_accounts yp false cats
                    {| created := created stats; existing := existing stats;
                       skipped := skipped stats + 1 |}
                    (out ++ [LFailed c0 e]) fs') as (_ & _ & _ & _ & Hs & _).
      cbn [skipped] in Hs. lia.
    + intros Hsk c [<- | Hc].
      * apply (proj1 (proj2 (proj2 (proj2 (proj2 (proj2 (proj2
                 (loop_accounts yp false cats _ _ fs')))))))).
        apply Hmk; [ | reflexivity ].
        unfold joinpath. destruct yp; discriminate.
      * apply (IH _ _ fs' Hsk c Hc).
Qed.

(** Where every category folder is in place, the loop counts them all as
    existing and changes nothing. *)
Lemma loop_all_existing yp dry cats :
  forall stats out fs,
    (forall c, In c cats -> In (joinpath yp c) fs) ->
    loop_ yp dry cats stats out fs
    = ({| created := created stats;
          existing := existing stats + Z.of_nat (List.length cats);
          skipped := skipped stats |},
       out ++ map LExisting cats, fs).
Proof.
  induction cats as [ | c cats IH]; intros stats out fs Hall.
  - cbn. rewrite app_nil_r, Z.add_0_r. destruct stats; reflexivity.
  - cbn [for_category_in].
    rewrite (proj2 (path_exists_In fs (joinpath yp c)))
      by (apply Hall; left; reflexivity).
    rewrite IH by (intros c' Hc'; apply Hall; right; exact Hc').
    cbn [created existing skipped map List.length].
    rewrite <- app_assoc. cbn [app].
    replace (existing stats + 1 + Z.of_nat (List.length cats))
      with (existing stats + Z.of_nat (S (List.length cats))) by lia.
    reflexivity.
Qed.

Lemma joinpath_inj yp c c' r :
  joinpath yp c = joinpath yp c' ++ r -> c = c'.
Proof.
  unfold joinpath. rewrite <- app_assoc. intro H.
  apply app_inv_head in H. cbn in H. injection H as H _. exact H.
Qed.

(** A dry run and a real run from file systems that agree on the category
    folders still to come count alike: what the real run creates or skips,
    the dry run counts as created. *)
Lemma loop_dry_predicts yp cats :
  NoDup cats ->
  forall sd od fd sr or fr,
    (forall c, In c cats ->
               path_exists fd (joinpath yp c) = path_exists fr (joinpath yp c)) ->
    let d := loop_ yp true cats sd od fd in
    let r := loop_ yp false cats sr or fr in
    created (fst (fst d)) - created sd
    = (created (fst (fst r)) - created sr) + (skipped (fst (fst r)) - skipped sr)
    /\ existing (fst (fst d)) - existing sd
       = existing (fst (fst r)) - existing sr.
Proof.
  induction cats as [ | c cats IH]; intros Hnd sd od fd sr or fr Hag;
    cbn zeta.
  - cbn. lia.
  - inversion Hnd as [ | ? ? Hnotin Hnd']; subst.
    cbn [for_category_in].
    rewrite (Hag c (or_introl eq_refl)).
    assert (Hag' : forall c', In c' cats ->
               path_exists fd (joinpath yp c') = path_exists fr (joinpath yp c'))
      by (intros c' Hc'; apply Hag; right; exact Hc').
    destruct (path_exists fr (joinpath yp c)) eqn:Hex.
    + specialize (IH Hnd' {| created := created sd;
                            existing := existing sd + 1;
                            skipped := skipped sd |} (od ++ [LExisting c]) fd
                     {| created := created sr;
                        existing := existing sr + 1;
                        skipped := skipped sr |} (or ++ [LExisting c]) fr Hag').
      cbn zeta in IH. cbn [created existing skipped] in IH. lia.
    + cbn [negb].
      pose proof (mkdir_In (joinpath yp c) fr) as Hmk.
      assert (Hkeep : forall fr',
                 (forall x, In x fr' ->
                            In x fr \/ In x (prefixes (joinpath yp c))) ->
                 (forall x, In x fr -> In x fr') ->
                 forall c', In c' cats ->
                   path_exists fd (joinpath yp c')
                   = path_exists fr' (joinpath yp c')).
      { intros fr' Hnew Hold c' Hc'. rewrite (Hag' c' Hc').
        destruct (path_exists fr (joinpath yp c')) eqn:Hc.
        - symmetry. apply path_exists_In. apply Hold.
          apply path_exists_In. exact Hc.
        - symmetry. apply path_exists_false. intro Hin.
          apply path_exists_false in Hc.
          destruct (Hnew _ Hin) as [H | H]; [ contradiction | ].
          apply prefixes_In in H. destruct H as (_ & r & Hr).
          apply joinpath_inj in Hr. subst c'. contradiction. }
      destruct (mkdir_ (joinpath yp c) fr) as [[e | ] fr'];
        cbn [fst snd] in Hmk.
      * specialize (IH Hnd' {| created := created sd + 1;
                              existing := existing sd;
                              skipped := skipped sd |} (od ++ [LWould c]) fd
                       {| created := created sr;
                          existing := existing sr;
                          skipped := skipped sr + 1 |}
                       (or ++ [LFailed c e]) fr').
        cbn zeta in IH. cbn [created existing skipped] in IH.
        assert (Hag'' : forall c', In c' cats ->
                   path_exists fd (joinpath yp c')
                   = path_exists fr' (joinpath yp c')).
        { apply Hkeep.
          - intros x Hx. apply Hmk in Hx.
            destruct Hx as [Hx | [Hx _]]; [ left; exact Hx | discriminate Hx ].
          - intros x Hx. apply Hmk. left. exact Hx. }
        specialize (IH Hag''). lia.
      * specialize (IH Hnd' {| created := created sd + 1;
                              existing := existing sd;
                              skipped := skipped sd |} (od ++ [LWould c]) fd
                       {| created := created sr + 1;
                          existing := existing sr;
                          skipped := skipped sr |}
                       (or ++ [LCreated c]) fr').
        cbn zeta in IH. cbn [created existing skipped] in IH.
        assert (Hag'' : forall c', In c' cats ->
                   path_exists fd (joinpath yp c')
                   = path_exists fr' (joinpath yp c')).
        { apply Hkeep.
          - intros x Hx. apply Hmk in Hx.
            destruct Hx as [Hx | [_ Hx]]; [ left; exact Hx | right; exact Hx ].
          - intros x Hx. apply Hmk. left. exact Hx. }
        specialize (IH Hag''). lia.
Qed.

Lemma CATEGORIES_NoDup : NoDup CATEGORIES.
Proof.
  apply (NoDup_count_occ' string_dec). intros c Hc.
  cbn in Hc. repeat (destruct Hc as [<- | Hc]; [ reflexivity | ]).
  destruct Hc.
Qed.

Lemma create_when_missing decade year dry fs :
  path_exists fs (year_path decade year) = false ->
  create_ decade year dry fs = (zero, [LYearMissing decade year], fs).
Proof.
  intro H. unfold create_categories_for_year. rewrite H. reflexivity.
Qed.

Lemma create_when_existing decade year dry fs :
  path_exists fs (year_path decade year) = true ->
  create_ decade year dry fs
  = loop_ (year_path decade year) dry CATEGORIES zero [LYear decade year] fs.
Proof.
  intro H. unfold create_categories_for_year. rewrite H. reflexivity.
Qed.

(* The counters and the printed lines of one year. *)
Lemma create_accounts decade year dry fs :
  let r := create_ decade year dry fs in
  let stats := fst (fst r) in
  (path_exists fs (year_path decade year) = true ->
   total stats = 11
   /\ List.length (snd (fst r)) = 12%nat
   /\ 0 <= created stats /\ 0 <= existing stats /\ 0 <= skipped stats)
  /\ (path_exists fs (year_path decade year) = false ->
      r = (zero, [LYearMissing decade year], fs)).
Proof.
  cbn zeta. split.
  - intro Hy. rewrite (create_when_existing decade year dry fs Hy).
    destruct (loop_accounts (year_path decade year) dry CATEGORIES zero
                [LYear decade year] fs) as (Ht & Hl & Hc & He & Hs & _).
    split; [ exact Ht | ]. split; [ exact Hl | ].
    split; [ exact Hc | ]. split; [ exact He | exact Hs ].
  - apply create_when_missing.
Qed.

(* A dry run of one year. *)
Lemma create_dry decade year fs :
  let r := create_ decade year true fs in
  snd r = fs /\ skipped (fst (fst r)) = 0.
Proof.
  cbn zeta. destruct (path_exists fs (year_path decade year)) eqn:Hy.
  - rewrite (create_when_existing decade year true fs Hy).
    destruct (loop_accounts (year_path decade year) true CATEGORIES zero
                [LYear decade year] fs)
      as (_ & _ & _ & _ & _ & Hd & _).
    exact (Hd eq_refl).
  - rewrite (create_when_missing decade year true fs Hy).
    split; reflexivity.
Qed.

(* What one year adds to the file system. *)
Lemma create_adds decade year dry fs :
  let fs' := snd (create_ decade year dry fs) in
  (forall x, In x fs -> In x fs')
  /\ (forall x,
        In x fs' ->
        In x fs
        \/ exists c r,
            In c CATEGORIES
            /\ x <> []
            /\ joinpath (year_path decade year) c = x ++ r).
Proof.
  cbn zeta. destruct (path_exists fs (year_path decade year)) eqn:Hy.
  - rewrite (create_when_existing decade year dry fs Hy).
    destruct (loop_accounts (year_path decade year) dry CATEGORIES zero
                [LYear decade year] fs)
      as (_ & _ & _ & _ & _ & _ & Hg & Hn).
    split; [ exact Hg | ].
    intros x Hx. destruct (Hn x Hx) as [H | (c & Hc & H)];
      [ left; exact H | right ].
    apply prefixes_In in H. destruct H as (Hne & r' & Hr).
    exists c, r'. split; [ exact Hc | split; assumption ].
  - rewrite (create_when_missing decade year dry fs Hy).
    split; [ intros x Hx; exact Hx | intros x Hx; left; exact Hx ].
Qed.


(** X17.  A dry run leaves the file system as it is and skips nothing. *)
Theorem dry_run_changes_nothing decade year fs :
  let r := create_categories_for_year mkdir_refused decade year true fs in
  snd r = fs /\ skipped (fst (fst r)) = 0.
Proof. exact (create_dry decade year fs). Qed.

(** X18.  [create_categories_for_year] takes nothing away, and what it
    adds is a category folder of that year or lies on the way to one. *)
Theorem only_category_folders_are_added decade year dry fs :
  let fs' :=
    snd (create_categories_for_year mkdir_refused decade year dry fs) in
  (forall x, In x fs -> In x fs')
  /\ (forall x,
        In x fs' ->
        In x fs
        \/ exists c r,
            In c CATEGORIES
            /\ x <> []
            /\ joinpath (year_path decade year) c = x ++ r).
Proof. exact (create_adds decade year dry fs). Qed.

(** X19.  After a real run that skipped nothing, a second run, dry or
    real, creates and skips nothing, finds as existing what the first run
    created or found, and leaves the file system as it is. *)
Theorem second_run_finds_everything decade year dry fs :
  let r1 := create_categories_for_year mkdir_refused decade year false fs in
  skipped (fst (fst r1)) = 0 ->
  let r2 :=
    create_categories_for_year mkdir_refused decade year dry (snd r1) in
  created (fst (fst r2)) = 0
  /\ skipped (fst (fst r2)) = 0
  /\ existing (fst (fst r2))
     = created (fst (fst r1)) + existing (fst (fst r1))
  /\ snd r2 = snd r1.
Proof.
  cbn zeta. destruct (path_exists fs (year_path decade year)) eqn:Hy.
  - rewrite (create_when_existing decade year false fs Hy).
    destruct (loop_accounts (year_path decade year) false CATEGORIES zero
                [LYear decade year] fs)
      as (Ht & _ & _ & _ & _ & _ & Hg & _).
    pose proof (loop_creates_all (year_path decade year) CATEGORIES zero
                  [LYear decade year] fs) as Hall.
    cbn zeta in Hall.
    generalize dependent (loop_ (year_path decade year) false CATEGORIES zero
                            [LYear decade year] fs).
    intros r1 Ht Hg Hall Hsk. specialize (Hall Hsk).
    assert (Hy1 : path_exists (snd r1) (year_path decade year) = true)
      by (apply path_exists_In; apply Hg; apply path_exists_In; exact Hy).
    rewrite (create_when_existing decade year dry (snd r1) Hy1).
    rewrite (loop_all_existing (year_path decade year) dry CATEGORIES
               zero [LYear decade year] (snd r1) Hall).
    cbn [fst snd created existing skipped zero].
    unfold total in Ht. cbn [created existing skipped zero] in Ht.
    split; [ reflexivity | ]. split; [ reflexivity | ].
    split; [ lia | reflexivity ].
  - rewrite (create_when_missing decade year false fs Hy).
    cbn [fst snd]. intros _.
    rewrite (create_when_missing decade year dry fs Hy).
    cbn [fst snd created existing skipped zero].
    split; [ reflexivity | ]. split; [ reflexivity | ].
    split; reflexivity.
Qed.

(** X20.  A dry run tells what a real run from the same file system does:
    it counts as existing what the real run counts as existing, and as
    created what the real run creates or, refused by the system, skips. *)
Theorem dry_run_predicts_real_run decade year fs :
  let d :=
    fst (fst (create_categories_for_year mkdir_refused decade year true fs)) in
  let r :=
    fst (fst (create_categories_for_year mkdir_refused decade year false fs)) in
  created d = created r + skipped r
  /\ existing d = existing r
  /\ skipped d = 0.
Proof.
  cbn zeta.
  pose proof (create_dry decade year fs) as (_ & Hsk).
  revert Hsk.
  destruct (path_exists fs (year_path decade year)) eqn:Hy.
  - rewrite (create_when_existing decade year true fs Hy).
    rewrite (create_when_existing decade year false fs Hy).
    destruct (loop_dry_predicts (year_path decade year) CATEGORIES
                CATEGORIES_NoDup zero [LYear decade year] fs
                zero [LYear decade year] fs (fun c _ => eq_refl))
      as (Hc & He).
    generalize dependent (loop_ (year_path decade year) true CATEGORIES zero
                            [LYear decade year] fs).
    generalize dependent (loop_ (year_path decade year) false CATEGORIES zero
                            [LYear decade year] fs).
    intros r d Hc He Hsk. cbn [created existing skipped zero] in *.
    split; [ lia | split; [ lia | exact Hsk ] ].
  - rewrite (create_when_missing decade year true fs Hy).
    rewrite (create_when_missing decade year false fs Hy).
    intros _. split; [ reflexivity | split; reflexivity ].
Qed.

(** *** The loops over the years and [main] *)

Local Abbreviation years_ := (for_year_in mkdir_refused).
Local Abbreviation decades_ := (for_decade_in mkdir_refused).

Lemma year_path_length decade year :
  List.length (year_path decade year) = 3%nat.
Proof. reflexivity. Qed.

(** A run of [create_categories_for_year] neither adds nor removes a path
    of three components, the length of the paths of year folders. *)
Lemma create_keeps_year_folders decade year dry fs x :
  List.length x = 3%nat ->
  path_exists (snd (create_ decade year dry fs)) x = path_exists fs x.
Proof.
  intro Hlen.
  destruct (create_adds decade year dry fs) as (Hg & Hn).
  cbn zeta in Hg, Hn.
  destruct (path_exists fs (year_path decade year)) eqn:Hy.
  - destruct (path_exists fs x) eqn:Hx.
    + apply path_exists_In. apply Hg. apply path_exists_In. exact Hx.
    + apply path_exists_false. intro Hin. apply path_exists_false in Hx.
      destruct (Hn x Hin) as [H | (c & r & _ & _ & Hr)]; [ contradiction | ].
      apply Hx. apply path_exists_In in Hy.
      assert (x = year_path decade year); [ | subst x; exact Hy ].
      unfold joinpath in Hr.
      assert (Hlr : List.length r = 1%nat).
      { apply (f_equal (@List.length string)) in Hr.
        rewrite !length_app, year_path_length, Hlen in Hr.
        cbn [List.length] in Hr. lia. }
      destruct r as [ | c' [ | ]]; try discriminate Hlr.
      apply app_inj_tail in Hr. destruct Hr as [Hr _]. symmetry. exact Hr.
  - rewrite (create_when_missing decade year dry fs Hy). reflexivity.
Qed.

Lemma filter_year_folders_ext (fs fs' : files) (l : list Path) :
  (forall x, List.length x = 3%nat -> path_exists fs' x = path_exists fs x) ->
  Forall (fun x => List.length x = 3%nat) l ->
  filter (path_exists fs') l = filter (path_exists fs) l.
Proof.
  intros Hext Hall. induction Hall as [ | x l Hx _ IH]; [ reflexivity | ].
  cbn. rewrite (Hext x Hx), IH. reflexivity.
Qed.

Lemma year_paths_length decade years :
  Forall (fun x => List.length x = 3%nat) (map (year_path decade) years).
Proof.
  apply Forall_forall. intros x Hx. apply in_map_iff in Hx.
  destruct Hx as (y & <- & _). reflexivity.
Qed.

Lemma create_total decade year dry fs :
  total (fst (fst (create_ decade year dry fs)))
  = if path_exists fs (year_path decade year) then 11 else 0.
Proof.
  destruct (create_accounts decade year dry fs) as (He & Hm).
  cbn zeta in He, Hm.
  destruct (path_exists fs (year_path decade year)).
  - exact (proj1 (He eq_refl)).
  - rewrite (Hm eq_refl). reflexivity.
Qed.

Lemma plus_total a b : total (plus a b) = total a + total b.
Proof. unfold total, plus. cbn. lia. Qed.

(** The loop over the years of a decade. *)
Lemma years_facts decade dry years :
  forall overall out fs,
    let r := years_ decade dry years overall out fs in
    total (fst (fst r))
    = total overall
      + 11 * Z.of_nat (List.length
                         (filter (path_exists fs)
                            (map (year_path decade) years)))
    /\ (forall x, List.length x = 3%nat ->
                  path_exists (snd r) x = path_exists fs x)
    /\ (forall x, In x fs -> In x (snd r))
    /\ (dry = true -> snd r = fs).
Proof.
  induction years as [ | year years IH]; intros overall out fs; cbn zeta.
  - cbn. split; [ lia | ]. split; [ reflexivity | ].
    split; [ intros x Hx; exact Hx | reflexivity ].
  - cbn [for_year_in map filter].
    pose proof (create_total decade year dry fs) as Ht.
    pose proof (create_keeps_year_folders decade year dry fs) as Hk.
    pose proof (proj1 (create_adds decade year dry fs))
      as Hg.
    pose proof (create_dry decade year fs) as Hd.
    cbn zeta in Hg, Hd.
    destruct (create_ decade year dry fs) as [[stats out'] fs1] eqn:Hc.
    cbn [fst snd] in Ht, Hk, Hg.
    specialize (IH (plus overall stats) (out ++ out') fs1). cbn zeta in IH.
    destruct IH as (IHt & IHk & IHg & IHd).
    rewrite plus_total in IHt.
    rewrite (filter_year_folders_ext fs fs1 _ Hk (year_paths_length _ _))
      in IHt.
    split.
    { rewrite IHt, Ht.
      destruct (path_exists fs (year_path decade year));
        cbn [List.length]; lia. }
    split.
    { intros x Hx. rewrite (IHk x Hx). apply Hk. exact Hx. }
    split.
    { intros x Hx. apply IHg. apply Hg. exact Hx. }
    intro Hdry. rewrite (IHd Hdry). subst dry. rewrite Hc in Hd.
    exact (proj1 Hd).
Qed.

(** The loop over the decades. *)
Lemma decades_facts dry decades :
  forall overall out fs,
    let r := decades_ dry decades overall out fs in
    total (fst (fst r))
    = total overall
      + 11 * Z.of_nat
               (List.length
                  (filter (path_exists fs)
                     (flat_map (fun '(decade, years) =>
                                  map (year_path decade) years) decades)))
    /\ (forall x, List.length x = 3%nat ->
                  path_exists (snd r) x = path_exists fs x)
    /\ (forall x, In x fs -> In x (snd r))
    /\ (dry = true -> snd r = fs).
Proof.
  induction decades as [ | [decade years] decades IH];
    intros overall out fs; cbn zeta.
  - cbn. split; [ lia | ]. split; [ reflexivity | ].
    split; [ intros x Hx; exact Hx | reflexivity ].
  - cbn [for_decade_in flat_map].
    destruct (years_facts decade dry years overall
                (out ++ [LDecade decade]) fs) as (Ht & Hk & Hg & Hd).
    destruct (years_ decade dry years overall (out ++ [LDecade decade]) fs)
      as [[overall1 out1] fs1].
    cbn [fst snd] in Ht, Hk, Hg, Hd.
    specialize (IH overall1 out1 fs1). cbn zeta in IH.
    destruct IH as (IHt & IHk & IHg & IHd).
    assert (Hall : Forall (fun x => List.length x = 3%nat)
                     (flat_map (fun '(decade, years) =>
                                  map (year_path decade) years) decades)).
    { apply Forall_forall. intros x Hx. apply in_flat_map in Hx.
      destruct Hx as ([d ys] & _ & Hx). apply in_map_iff in Hx.
      destruct Hx as (y & <- & _). reflexivity. }
    rewrite (filter_year_folders_ext fs fs1 _ Hk Hall) in IHt.
    split.
    { rewrite IHt, Ht, filter_app, length_app. lia. }
    split.
    { intros x Hx. rewrite (IHk x Hx). apply Hk. exact Hx. }
    split.
    { intros x Hx. apply IHg. apply Hg. exact Hx. }
    intro Hdry. rewrite (IHd Hdry). apply Hd. exact Hdry.
Qed.

(** The work proper: how [work] ends, with what totals, and what it does
    to the file system. *)
Lemma work_facts dry out fs :
  exists overall,
    snd (work mkdir_refused dry out fs) = Completed dry overall
    /\ total overall
       = 11 * Z.of_nat (List.length (filter (path_exists fs) year_folders))
    /\ (forall x, In x fs -> In x (snd (fst (work mkdir_refused dry out fs))))
    /\ (dry = true -> snd (fst (work mkdir_refused dry out fs)) = fs).
Proof.
  unfold work.
  destruct (decades_facts dry YEARS_NEED_SUBDIRS zero (out ++ [LRule]) fs)
    as (Ht & _ & Hg & Hd).
  fold year_folders in Ht.
  generalize dependent (decades_ dry YEARS_NEED_SUBDIRS zero
                          (out ++ [LRule]) fs).
  intros [[overall out'] fs'] Ht Hg Hd. cbn [fst snd] in *.
  exists overall. split; [ reflexivity | ].
  split; [ exact Ht | ]. split; [ exact Hg | exact Hd ].
Qed.


(** X22.  When [main] runs to its end, dry or real and whatever the
    system refuses, the three totals of the summary add up to 11 times the
    number of the year folders, among the 19 the script looks at, that
    existed at the start. *)
Theorem totals_count_the_year_folders keys fs dry overall :
  snd (main mkdir_refused keys fs) = Completed dry overall ->
  total overall
  = 11 * Z.of_nat (List.length (filter (path_exists fs) year_folders))
  /\ (List.length year_folders = 19)%nat.
Proof.
  intro H. split; [ | reflexivity ].
  revert H. unfold main.
  destruct keys as [ | [answer | | ] keys']; try discriminate.
  destruct (Unicode.eqb (strip (Unicode.decode answer)) (Unicode.decode "1")).
  - destruct (work_facts true
                ([LBanner (List.length CATEGORIES); LChoose] ++ [LDryRunMode])
                fs) as (overall' & He & Ht & _).
    rewrite He. intro H. injection H as _ <-. exact Ht.
  - destruct keys' as [ | [confirmation | | ] rest]; try discriminate.
    destruct (work_facts false
                ([LBanner (List.length CATEGORIES); LChoose] ++ [LRealMode])
                fs) as (overall' & He & Ht & _).
    rewrite He. intro H. injection H as _ <-. exact Ht.
Qed.

End Facts.

(** *** The properties above in a small archive *)

(** An archive in which the folder of 2004 holds the folder of one
    category. *)
Definition small_archive : files :=
  [ [ARCHIVE_BASE];
    [ARCHIVE_BASE; "Nuller"];
    [ARCHIVE_BASE; "Nuller"; "2004"];
    [ARCHIVE_BASE; "Nuller"; "2004"; "05_Steuern"] ].

(** A system that refuses the folder of one category of 2004. *)
Definition no_beruf : files -> Path -> option exn :=
  refused [[ARCHIVE_BASE; "Nuller"; "2004"; "07_Beruf"]].

Example create_in_small_archive :
  fst (fst (create_categories_for_year no_beruf "Nuller" 2004 false
              small_archive))
  = {| created := 9; existing := 1; skipped := 1 |}.
Proof. vm_compute. reflexivity. Qed.


Lemma only_category_folders_are_added_witness :
  In [ARCHIVE_BASE; "Nuller"; "2004"; "05_Steuern"] small_archive
  /\ In [ARCHIVE_BASE; "Nuller"; "2004"; "05_Steuern"]
       (snd (create_categories_for_year no_beruf "Nuller" 2004 false
               small_archive)).
Proof.
  assert (Hin : In [ARCHIVE_BASE; "Nuller"; "2004"; "05_Steuern"]
                  small_archive)
    by (right; right; right; left; reflexivity).
  split; [ exact Hin | ].
  exact (proj1 (only_category_folders_are_added no_beruf "Nuller" 2004 false
                  small_archive) _ Hin).
Defined.

Lemma second_run_finds_everything_witness :
  let r1 := create_categories_for_year nothing_refused "Nuller" 2004 false
              small_archive in
  let r2 := create_categories_for_year nothing_refused "Nuller" 2004 true
              (snd r1) in
  skipped (fst (fst r1)) = 0
  /\ created (fst (fst r2)) = 0
  /\ snd r2 = snd r1.
Proof.
  cbn zeta.
  assert (Hsk : skipped (fst (fst (create_categories_for_year nothing_refused
                                     "Nuller" 2004 false small_archive))) = 0)
    by (vm_compute; reflexivity).
  split; [ exact Hsk | ].
  destruct (second_run_finds_everything nothing_refused "Nuller" 2004 true
              small_archive Hsk) as (Hc & _ & _ & Hfs).
  split; [ exact Hc | exact Hfs ].
Defined.

Example main_dry_run_in_small_archive :
  snd (main nothing_refused [Typed " 1 "] small_archive)
  = Completed true {| created := 10; existing := 1; skipped := 0 |}.
Proof. vm_compute. reflexivity. Qed.

(** An interrupt at the second prompt: nothing is done. *)
Example main_interrupted_in_small_archive :
  main nothing_refused [Typed "2"; CtrlC] small_archive
  = ([LBanner 11; LChoose; LRealMode; LAborted], small_archive, Aborted).
Proof. vm_compute. reflexivity. Qed.

(** The answer [1] followed by a no-break space (the bytes [C2 A0]). *)
Definition one_and_no_break_space : string :=
  String "1" (String "194" (String "160" EmptyString)).

(** That answer asks for a dry run. *)
Example main_dry_run_after_no_break_space :
  main nothing_refused [Typed one_and_no_break_space] small_archive
  = main nothing_refused [Typed "1"] small_archive.
Proof. vm_compute. reflexivity. Qed.


Lemma totals_count_the_year_folders_witness :
  snd (main nothing_refused [Typed " 1 "] small_archive)
  = Completed true {| created := 10; existing := 1; skipped := 0 |}
  /\ total {| created := 10; existing := 1; skipped := 0 |}
     = 11 * Z.of_nat (List.length
                        (filter (path_exists small_archive) year_folders)).
Proof.
  assert (H : snd (main nothing_refused [Typed " 1 "] small_archive)
              = Completed true {| created := 10; existing := 1; skipped := 0 |})
    by (vm_compute; reflexivity).
  split; [ exact H | ].
  exact (proj1 (totals_count_the_year_folders nothing_refused
                  [Typed " 1 "] small_archive true _ H)).
Defined.

End SubdirsFacts.
